(** * xjs: item enumeration, source deduplication, classification and
      duplication

    A shallow embedding of [src/core/source/source.ts] and
    [src/core/items/item.ts]:

    - [Source.getCurrentSource], [Source.getItemList] (static),
    - [Item.getItemList] (instance), [Item.duplicate], [Item.getSource],
    - the pinned options of [CameraItem],

    and of the ready handshake ([ready], [setReady], [setOnce],
    [remoteVersion]).

    Promises are modelled by their final outcome together with the ordered
    trace of host calls issued on the way.  The host application, the scene
    tree, the version oracle and the XML codec are collaborators that live
    outside these files; they are fields of the [Host] record. *)

From Stdlib Require Import List String Ascii ZArith NArith Lia Bool.
From Stdlib Require Import Permutation Sorted DecimalString.
Import ListNotations.
Open Scope string_scope.

Set Implicit Arguments.

(* ===================================================================== *)
(** ** JavaScript strings *)
(* ===================================================================== *)

Module JsString.

(** [s.indexOf(p) === 0] and [/^p/.test(s)]: [p] is a prefix of [s]. *)
Fixpoint startsWith (p s : string) : bool :=
  match p with
  | EmptyString => true
  | String a p' =>
      match s with
      | EmptyString => false
      | String b s' => Ascii.eqb a b && startsWith p' s'
      end
  end.

(** [s.indexOf(p)]: index of the first occurrence of [p] in [s], or [-1]. *)
Fixpoint indexOf (s p : string) : Z :=
  if startsWith p s then 0%Z
  else match s with
       | EmptyString => (-1)%Z
       | String _ s' =>
           let r := indexOf s' p in
           if (r =? -1)%Z then (-1)%Z else (r + 1)%Z
       end.

(** [/p$/.test(s)] for a literal [p]: without the [m] flag, [$] matches at
    the end of the input only. *)
Fixpoint endsWith (p s : string) : bool :=
  String.eqb p s ||
  match s with
  | EmptyString => false
  | String _ s' => endsWith p s'
  end.

(** [s.split(',')]: the pieces between separators; the empty string gives
    one empty piece. *)
Fixpoint split (sep : ascii) (s : string) : list string :=
  match s with
  | EmptyString => [EmptyString]
  | String c s' =>
      if Ascii.eqb c sep then EmptyString :: split sep s'
      else match split sep s' with
           | [] => [String c EmptyString]
           | piece :: rest => String c piece :: rest
           end
  end.

(** ASCII lower-casing, used only to state case-insensitive properties. *)
Definition lower_ascii (c : ascii) : ascii :=
  let n := nat_of_ascii c in
  if (65 <=? n)%nat && (n <=? 90)%nat then ascii_of_nat (n + 32) else c.

Fixpoint lower (s : string) : string :=
  match s with
  | EmptyString => EmptyString
  | String c s' => String (lower_ascii c) (lower s')
  end.

(** Decimal rendering of an integer, as in a template literal. *)
Definition of_Z (z : Z) : string := NilZero.string_of_int (Z.to_int z).

End JsString.

(* ===================================================================== *)
(** ** JavaScript objects used as maps *)
(* ===================================================================== *)

(** [uniqueObj = {}] in [Item.getSource] is an ordinary object keyed by
    source ids.  Three facts about ordinary objects matter to the code:

    - property enumeration ([for ... in], following
      [OrdinaryOwnPropertyKeys]) lists the keys that are array indices
      first, in ascending numeric order, and the other string keys after
      them in the order of their creation; overwriting a property keeps
      its place;
    - assigning an object to the key [__proto__] runs the accessor of
      [Object.prototype]: it replaces the prototype and creates no own
      property;
    - [uniqueObj.hasOwnProperty] is an ordinary property read: an own
      property of that name shadows the inherited method. *)

Module JsObject.

Definition digit_of_ascii (c : ascii) : option N :=
  let n := N_of_ascii c in
  if (48 <=? n)%N && (n <=? 57)%N then Some (n - 48)%N else None.

Fixpoint parse_digits (s : string) (acc : N) : option N :=
  match s with
  | EmptyString => Some acc
  | String c s' =>
      match digit_of_ascii c with
      | Some d => parse_digits s' (10 * acc + d)%N
      | None => None
      end
  end.

(** A key is an array index when it is the canonical decimal rendering of
    an integer between [0] and [2^32 - 2]. *)
Definition array_index (k : string) : option N :=
  match k with
  | EmptyString => None
  | String c rest =>
      if Ascii.eqb c "0" && negb (String.eqb rest EmptyString) then None
      else match parse_digits k 0 with
           | Some n => if (n <? 4294967295)%N then Some n else None
           | None => None
           end
  end.

Definition is_index (k : string) : bool :=
  match array_index k with Some _ => true | None => false end.

Section Obj.

Variable V : Type.

(** Own properties in creation order, and the prototype when one was
    assigned through [__proto__]. *)
Record t := mk { own : list (string * V); proto : option V }.

Definition empty : t := mk [] None.

Fixpoint upsert (k : string) (v : V) (l : list (string * V)) : list (string * V) :=
  match l with
  | [] => [(k, v)]
  | (k', v') :: l' =>
      if String.eqb k k' then (k', v) :: l' else (k', v') :: upsert k v l'
  end.

(** [o[k] = v], for a value [v] that is an object. *)
Definition set (k : string) (v : V) (o : t) : t :=
  if String.eqb k "__proto__" then mk (own o) (Some v)
  else mk (upsert k v (own o)) (proto o).

Fixpoint lookup (k : string) (l : list (string * V)) : option V :=
  match l with
  | [] => None
  | (k', v) :: l' => if String.eqb k k' then Some v else lookup k l'
  end.

Definition hasOwn (k : string) (o : t) : bool :=
  match lookup k (own o) with Some _ => true | None => false end.

Fixpoint insert_sorted (e : N * (string * V)) (l : list (N * (string * V)))
  : list (N * (string * V)) :=
  match l with
  | [] => [e]
  | e' :: l' =>
      if (fst e <=? fst e')%N then e :: l else e' :: insert_sorted e l'
  end.

Definition sort_by_index (l : list (N * (string * V))) : list (N * (string * V)) :=
  fold_right insert_sorted [] l.

Definition index_entries (l : list (string * V)) : list (N * (string * V)) :=
  flat_map (fun kv => match array_index (fst kv) with
                      | Some n => [(n, kv)]
                      | None => []
                      end) l.

Definition named_entries (l : list (string * V)) : list (string * V) :=
  filter (fun kv => negb (is_index (fst kv))) l.

(** The own properties in enumeration order. *)
Definition ownEntries (o : t) : list (string * V) :=
  map snd (sort_by_index (index_entries (own o))) ++ named_entries (own o).

End Obj.

End JsObject.

(* ===================================================================== *)
(** ** Values, items and the host *)
(* ===================================================================== *)

(** [enum ItemTypes]: a TypeScript numeric enum, numbered from 0. *)
Inductive ItemTypes :=
| UNDEFINED | FILE | LIVE | TEXT | BITMAP | SCREEN | FLASHFILE | GAMESOURCE | HTML.

Definition ItemTypes_num (t : ItemTypes) : Z :=
  match t with
  | UNDEFINED => 0 | FILE => 1 | LIVE => 2 | TEXT => 3 | BITMAP => 4
  | SCREEN => 5 | FLASHFILE => 6 | GAMESOURCE => 7 | HTML => 8
  end.

(** The property bag an item is built from: the attributes of its XML
    description, in document order. *)
Definition Props := list (string * string).

(** The values a property read can produce in this code. *)
Inductive jsval :=
| JUndefined
| JStr (s : string)
| JNum (z : Z)
| JBool (b : bool)
| JObj (p : Props).

(** The fields [class Source] declares and its constructor assigns; [Item]
    and [CameraItem] add none.  [_name] and [_sceneId] hold [props['name']]
    and [props['sceneId']] as the bag has them, [undefined] when it has
    none. *)
Record Item := mkItem {
  _id : string;
  _srcId : string;
  _type : Z;
  _value : jsval;
  _name : jsval;
  _cname : string;
  _sceneId : jsval;
  _keepLoaded : bool;
  _xmlparams : Props;
  _isItemCall : bool
}.

(** [source[key]] on an instance.  The constructor of [Source] assigns
    the fields above and nothing else ([this._srcId = props['srcid']],
    [this._type = Number(props['type'])], ..., [this._xmlparams = props]),
    so these are the data properties of an instance; the attributes of the
    property bag, such as [item], [type] or [FilePlaylist], are reachable
    through [_xmlparams] only, and reading them off the instance gives
    [undefined].  (The methods on the prototype chain are not listed; the
    code reads none.) *)
Definition Item_get (it : Item) (key : string) : jsval :=
  if String.eqb key "_id" then JStr (_id it)
  else if String.eqb key "_srcId" then JStr (_srcId it)
  else if String.eqb key "_type" then JNum (_type it)
  else if String.eqb key "_value" then _value it
  else if String.eqb key "_name" then _name it
  else if String.eqb key "_cname" then JStr (_cname it)
  else if String.eqb key "_sceneId" then _sceneId it
  else if String.eqb key "_keepLoaded" then JBool (_keepLoaded it)
  else if String.eqb key "_xmlparams" then JObj (_xmlparams it)
  else if String.eqb key "_isItemCall" then JBool (_isItemCall it)
  else JUndefined.

(** Conversions and operators of the language, on these values. *)
Module Js.

(** [Number(v)]; [None] is [NaN].  Strings are converted when they are
    empty or unsigned decimal digits, the forms a numeric XML attribute
    takes; any other string counts as [NaN] here, although the language
    also reads signs, fractions, exponents, hexadecimal digits and
    surrounding white space.  The properties below that speak of a number
    read from a string are stated on the result of this function. *)
Definition Number (v : jsval) : option Z :=
  match v with
  | JUndefined => None
  | JNum z => Some z
  | JBool b => Some (if b then 1 else 0)%Z
  | JStr s =>
      match JsObject.parse_digits s 0 with
      | Some n => Some (Z.of_N n)
      | None => None
      end
  | JObj _ => None
  end.

(** [n === ItemTypes.T] *)
Definition is_type (n : option Z) (t : ItemTypes) : bool :=
  match n with
  | Some z => (z =? ItemTypes_num t)%Z
  | None => false
  end.

(** [String(v)], the conversion [RegExp.prototype.test] applies. *)
Definition ToString (v : jsval) : string :=
  match v with
  | JUndefined => "undefined"
  | JStr s => s
  | JNum z => JsString.of_Z z
  | JBool b => if b then "true" else "false"
  | JObj _ => "[object Object]"
  end.

(** [v.indexOf(p)]; [None] is the [TypeError] raised when [v] is not a
    string. *)
Definition indexOf (v : jsval) (p : string) : option Z :=
  match v with
  | JStr s => Some (JsString.indexOf s p)
  | _ => None
  end.

(** [v === ''] *)
Definition is_empty_string (v : jsval) : bool :=
  match v with
  | JStr s => String.eqb s ""
  | _ => false
  end.

(** [/\.gif$/.test(v)] *)
Definition test_gif (v : jsval) : bool := JsString.endsWith ".gif" (ToString v).

(** [/\.(gif|xbs)$/.test(v)] *)
Definition test_gif_xbs (v : jsval) : bool :=
  JsString.endsWith ".gif" (ToString v) || JsString.endsWith ".xbs" (ToString v).

(** [/^(rtsp|rtmp):\/\//.test(v)] *)
Definition test_stream (v : jsval) : bool :=
  JsString.startsWith "rtsp://" (ToString v)
  || JsString.startsWith "rtmp://" (ToString v).

End Js.

(** A scene reference; [Scene] itself is outside these files. *)
Record Scene := mkScene { scene_index : Z }.

(** What [options.scene] can hold. *)
Inductive SceneArg :=
| SceneUndefined                  (* property absent *)
| SceneRef (s : Scene)            (* [instanceof Scene] *)
| SceneOther (v : jsval).         (* any other value *)

(** [options] of [duplicate]: absent, or an object with optional fields. *)
Record Options := mkOptions { linked : option bool; scene : SceneArg }.

(** The collaborators.  [versionCompare(getVersion())] is given by the
    result of comparing the running version with each threshold;
    [searchItemsById] either yields the item or fails; [toXMLString] is
    [this.toXML().toString()]. *)
Record Host := mkHost {
  isExtension : bool;
  isSourcePlugin : bool;
  isSourceConfig : bool;
  cmp_minVersion : comparison;
  cmp_globalsrcMinVersion : comparison;
  getBaseId : string;
  searchItemsById : string -> option Item;
  itemProperty : string -> option string -> string;
  getSceneNumber : Scene -> Z;
  toXMLString : Item -> string
}.

Definition lessThan (c : comparison) : bool :=
  match c with Lt => true | _ => false end.

Definition greaterThan (c : comparison) : bool :=
  match c with Gt => true | _ => false end.

(** Calls that reach the host, in the order they are issued. *)
Inductive HostCall :=
| SearchItemsById (id : string)
| ItemGet (key : string) (id : option string)
| ItemSet (key value id : string)
| GetSceneNumber (s : Scene)
| CallFunc (name arg : string).

(** How a promise ends: resolved, rejected with an [Error] message, or
    never settled. *)
Inductive Outcome (A : Type) :=
| Resolved (a : A)
| Rejected (message : string)
| Pending.

Arguments Rejected {A} message.
Arguments Pending {A}.

(** A promise run to quiescence: the host calls issued and the outcome. *)
Record Async (A : Type) := mkAsync { calls : list HostCall; outcome : Outcome A }.

Definition resolve {A} (a : A) : Async A := mkAsync [] (Resolved a).
Definition reject {A} (message : string) : Async A := mkAsync [] (Rejected message).
Definition unsettled {A} : Async A := mkAsync [] Pending.

(** [p.then(a => k a)] inside an executor: [k] settles the enclosing
    promise; without a rejection handler a failure of [p] leaves it
    unsettled. *)
Definition andThen {A B} (p : Async A) (k : A -> Async B) : Async B :=
  match outcome p with
  | Resolved a => let q := k a in mkAsync (calls p ++ calls q) (outcome q)
  | Rejected _ => mkAsync (calls p) Pending
  | Pending => mkAsync (calls p) Pending
  end.

(** A call whose promise is dropped: issued, never awaited. *)
Definition fireAndForget {A B} (p : Async A) (q : Async B) : Async B :=
  mkAsync (calls p ++ calls q) (outcome q).

Notation "x <- p ;; k" := (andThen p (fun x => k))
  (at level 61, p at next level, right associativity).

(** The calls on the collaborators.  The host answers every property read
    and write, every scene-number request and every command it receives;
    a scene search is the one call that can fail. *)
Module HostApi.

Definition Scene_searchItemsById (h : Host) (id : string) : Async Item :=
  mkAsync [SearchItemsById id]
    match searchItemsById h id with
    | Some it => Resolved it
    | None => Rejected "NotFound"
    end.

Definition iItem_get (h : Host) (key : string) (id : option string) : Async string :=
  mkAsync [ItemGet key id] (Resolved (itemProperty h key id)).

Definition iItem_set (key value id : string) : Async unit :=
  mkAsync [ItemSet key value id] (Resolved tt).

Definition Scene_getSceneNumber (h : Host) (s : Scene) : Async Z :=
  mkAsync [GetSceneNumber s] (Resolved (getSceneNumber h s)).

Definition iApp_callFunc (name arg : string) : Async unit :=
  mkAsync [CallFunc name arg] (Resolved tt).

End HostApi.

(* ===================================================================== *)
(** ** Enumeration: [getItemList], [getCurrentSource] *)
(* ===================================================================== *)

(** [Promise.all]: every promise was created, hence its calls issued, when
    the array was built; the join resolves when all resolve and rejects as
    soon as one rejects. *)
Fixpoint all_outcomes {A} (l : list (Outcome A)) : Outcome (list A) :=
  match l with
  | [] => Resolved []
  | o :: l' =>
      match o, all_outcomes l' with
      | Rejected m, _ => Rejected m
      | _, Rejected m => Rejected m
      | Resolved a, Resolved r => Resolved (a :: r)
      | _, _ => Pending
      end
  end.

Definition Promise_all {A} (l : list (Async A)) : Async (list A) :=
  mkAsync (flat_map (@calls A) l) (all_outcomes (map (@outcome A) l)).

(** [new Promise(itemResolve => search(itemId).then(itemResolve)
      .catch(() => itemResolve(null)))]; [None] is [null]. *)
Definition itemPromise (h : Host) (itemId : string) : Async (option Item) :=
  let p := HostApi.Scene_searchItemsById h itemId in
  mkAsync (calls p)
    match outcome p with
    | Resolved it => Resolved (Some it)
    | Rejected _ => Resolved None
    | Pending => Pending
    end.

(** [results.filter(res => res !== null)] *)
Fixpoint filterNotNull {A} (results : list (option A)) : list A :=
  match results with
  | [] => []
  | Some a :: r => a :: filterNotNull r
  | None :: r => filterNotNull r
  end.

(** The handler of [iItem.get('itemlist', ...)], shared by both
    [getItemList] methods. *)
Definition resolveItemList (h : Host) (itemlist : string) : Async (list Item) :=
  let itemsArray := JsString.split "," itemlist in
  results <- Promise_all (map (itemPromise h) itemsArray) ;;
  resolve (filterNotNull results).

Definition extensionError : string :=
  "Extensions do not have sources associated with them.".

(** [static Source.getItemList()], inherited by [Item] as
    [Item.getItemList()]. *)
Definition Source_getItemList (h : Host) : Async (list Item) :=
  if isExtension h then reject extensionError
  else if lessThan (cmp_minVersion h) then
    item <- HostApi.Scene_searchItemsById h (getBaseId h) ;;
    resolve [item]
  else if isSourcePlugin h || isSourceConfig h then
    itemlist <- HostApi.iItem_get h "itemlist" None ;;
    resolveItemList h itemlist
  else unsettled.

(** [item.getItemList()], the instance method of [Item]. *)
Definition Item_getItemList (h : Host) (this : Item) : Async (list Item) :=
  if lessThan (cmp_minVersion h) then
    item <- HostApi.Scene_searchItemsById h (_id this) ;;
    resolve [item]
  else
    itemlist <- HostApi.iItem_get h "itemlist" (Some (_id this)) ;;
    resolveItemList h itemlist.

(** [static Source.getCurrentSource()] *)
Definition Source_getCurrentSource (h : Host) : Async Item :=
  if isExtension h then reject extensionError
  else if (isSourcePlugin h || isSourceConfig h)
          && greaterThan (cmp_minVersion h) then
    items <- Source_getItemList h ;;
    match items with
    | it :: _ => resolve it
    | [] => reject "Cannot get item list"
    end
  else if isSourcePlugin h || isSourceConfig h then
    item <- HostApi.Scene_searchItemsById h (getBaseId h) ;;
    resolve item
  else unsettled.

(* ===================================================================== *)
(** ** [Item.duplicate] *)
(* ===================================================================== *)

Definition scene_is_undefined (s : SceneArg) : bool :=
  match s with
  | SceneUndefined => true
  | SceneOther JUndefined => true
  | _ => false
  end.

Definition truthy_linked (l : option bool) : bool :=
  match l with Some true => true | _ => false end.

Definition linked_is_undefined (l : option bool) : bool :=
  match l with None => true | Some _ => false end.

Definition linkFlag (l : option bool) : string :=
  if truthy_linked l then "1" else "0".

(** [link:<l>|s:<id>|additem], for the text [id] of the scene id as the
    template literal renders it. *)
Definition additemCommand (l : string) (id : string) : string :=
  "link:" ++ l ++ "|s:" ++ id ++ "|additem".

Definition Item_duplicate (h : Host) (this : Item) (options : option Options)
  : Async Item :=
  if lessThan (cmp_globalsrcMinVersion h) then
    _ <- HostApi.iApp_callFunc "additem" (toXMLString h this) ;;
    resolve this
  else
    match options with
    | Some o =>
        fireAndForget
          (if truthy_linked (linked o)
           then HostApi.iItem_set "prop:keeploaded" "1" (_id this)
           else resolve tt)
          (if negb (scene_is_undefined (scene o))
              && negb (linked_is_undefined (linked o)) then
             match scene o with
             | SceneRef s =>
                 id <- HostApi.Scene_getSceneNumber h s ;;
                 _ <- HostApi.iApp_callFunc
                        (additemCommand (linkFlag (linked o)) (JsString.of_Z id))
                        (toXMLString h this) ;;
                 resolve this
             | _ => reject "Invalid parameters"
             end
           else if linked_is_undefined (linked o) then
             match scene o with
             | SceneRef s =>
                 id <- HostApi.Scene_getSceneNumber h s ;;
                 _ <- HostApi.iApp_callFunc
                        (additemCommand "0" (JsString.of_Z id))
                        (toXMLString h this) ;;
                 resolve this
             | _ => reject "Invalid parameters"
             end
           else if scene_is_undefined (scene o) then
             _ <- HostApi.iApp_callFunc
                    (additemCommand (linkFlag (linked o))
                       (Js.ToString (_sceneId this)))
                    (toXMLString h this) ;;
             resolve this
           else unsettled)
    | None =>
        _ <- HostApi.iApp_callFunc "link:0|additem" (toXMLString h this) ;;
        resolve this
    end.

(* ===================================================================== *)
(** ** [Item.getSource]: deduplication and classification *)
(* ===================================================================== *)

Inductive SourceClass :=
| GameSource | VideoPlaylistSource | HtmlSource | ScreenSource | ImageSource
| MediaSource | CameraSource | AudioSource | FlashSource | GenericSource.

(** [new C(params)] *)
Record ConcreteSource := mkSource { kind : SourceClass; params : jsval }.

Definition audioGuid : string := "{33D9A762-90C8-11D0-BD43-00A0C911CE86}".

(** The body of [typePromise], as a function of the property reads on
    [source]; [None] is a [TypeError] raised while a condition is
    evaluated.  Conditions are evaluated left to right with the short
    circuits of [&&] and [||]. *)
Definition typePromise (source : string -> jsval) : option ConcreteSource :=
  let params := source "_xmlparams" in
  let type := Js.Number (source "_type") in
  if Js.is_type type GAMESOURCE then Some (mkSource GameSource params)
  else
    match
      (if Js.is_type type HTML || Js.is_type type FILE then
         match Js.indexOf (source "_name") "Video Playlist" with
         | None => None
         | Some i =>
             Some ((i =? 0)%Z && negb (Js.is_empty_string (source "FilePlaylist")))
         end
       else Some false)
    with
    | None => None
    | Some true => Some (mkSource VideoPlaylistSource params)
    | Some false =>
        if Js.is_type type HTML then Some (mkSource HtmlSource params)
        else if Js.is_type type SCREEN then Some (mkSource ScreenSource params)
        else if Js.is_type type BITMAP
                || (Js.is_type type FILE && Js.test_gif (source "item"))
        then Some (mkSource ImageSource params)
        else if Js.is_type type FILE
                && negb (Js.test_gif_xbs (source "item"))
                && negb (Js.test_stream (source "item"))
        then Some (mkSource MediaSource params)
        else if Js.is_type (Js.Number (source "type")) LIVE then
          match Js.indexOf (source "item") audioGuid with
          | None => None
          | Some i =>
              if (i =? -1)%Z then Some (mkSource CameraSource params)
              else Some (mkSource AudioSource params)
          end
        else if Js.is_type (Js.Number (source "type")) FLASHFILE
        then Some (mkSource FlashSource params)
        else Some (mkSource GenericSource params)
    end.

(** First loop of the handler: [uniqueObj[items[i]._srcId] = items[i]] for
    every item, in order (each instance has exactly one own [_srcId]). *)
Definition groupBySrcId (items : list Item) : JsObject.t Item :=
  fold_left (fun o it => JsObject.set (_srcId it) it o) items (JsObject.empty Item).

(** Second loop: [for (j in uniqueObj) if (uniqueObj.hasOwnProperty(j))
    uniqueSource.push(uniqueObj[j])].  Inherited keys fail the test; when an
    own property shadows [hasOwnProperty] the call raises a [TypeError]
    ([None]). *)
Definition collectUnique (uniqueObj : JsObject.t Item) : option (list Item) :=
  if JsObject.hasOwn "hasOwnProperty" uniqueObj then None
  else Some (map snd (JsObject.ownEntries uniqueObj)).

Definition uniqueSource (items : list Item) : option (list Item) :=
  collectUnique (groupBySrcId items).

(** [typePromise(index)] as a promise: an exception in the executor
    rejects it. *)
Definition typePromiseAsync (source : Item) : Async ConcreteSource :=
  match typePromise (Item_get source) with
  | Some s => resolve s
  | None => reject "TypeError"
  end.

(** Whether rule 2 calls [indexOf] on a name that is not a string: the one
    way the classification of an instance raises. *)
Definition nameRaises (it : Item) : bool :=
  (Js.is_type (Some (_type it)) HTML || Js.is_type (Some (_type it)) FILE)
  && match _name it with
     | JStr _ => false
     | _ => true
     end.

Definition getSourceError : string := "Does not work here!".

(** [static Item.getSource()] *)
Definition Item_getSource (h : Host) : Async (list ConcreteSource) :=
  if isExtension h then reject getSourceError
  else if isSourcePlugin h || isSourceConfig h then
    items <- Source_getItemList h ;;
    match uniqueSource items with
    | None => unsettled
    | Some us =>
        results <- Promise_all (map typePromiseAsync us) ;;
        resolve results
    end
  else unsettled.

(** [{k1: v1, ...}]: an object given by its data properties; every other
    property reads as [undefined]. *)
Fixpoint objectLiteral (fields : list (string * jsval)) (key : string) : jsval :=
  match fields with
  | [] => JUndefined
  | (k, v) :: rest => if String.eqb key k then v else objectLiteral rest key
  end.


(* ===================================================================== *)
(** ** Sample records and hosts *)
(* ===================================================================== *)

Module Samples.

(** An item with the given id, source id, type and name, placed on the
    first scene; [props] lists the attributes of its bag that the examples
    read. *)
Definition item (id srcid : string) (type : ItemTypes) (name : string)
  (props : Props) : Item :=
  mkItem id srcid (ItemTypes_num type) JUndefined (JStr name) "" (JNum 0) false
    props true.

Definition clipProps (file : string) : Props :=
  [("type", "1"); ("item", file); ("name", "clip")].

(** A FILE item whose identity string is [file]. *)
Definition clipItem (file : string) : Item :=
  item "{ID-1}" "{SRC-1}" FILE "clip" (clipProps file).

(** The same record as a bare object that also exposes [item]. *)
Definition clipObject (file : string) : string -> jsval :=
  objectLiteral [("_type", JNum 1); ("_name", JStr "clip");
                 ("item", JStr file); ("_xmlparams", JObj (clipProps file))].

(** A FILE record named like a playlist whose [FilePlaylist] is empty. *)
Definition namedLikePlaylist (file : string) : string -> jsval :=
  objectLiteral [("_type", JNum 1); ("_name", JStr "Video Playlist x");
                 ("FilePlaylist", JStr ""); ("item", JStr file);
                 ("_xmlparams", JObj (clipProps file))].

Definition micDevice : string :=
  "@DEVICE:CM:{33D9A762-90C8-11D0-BD43-00A0C911CE86}\wave_{4F5C}".

Definition micProps : Props :=
  [("type", "2"); ("item", micDevice); ("name", "Microphone")].

(** A LIVE item whose identity string contains the audio GUID. *)
Definition micItem : Item := item "{ID-2}" "{SRC-2}" LIVE "Microphone" micProps.

Definition camDevice : string :=
  "@DEVICE:PNP:\\?\USB#VID_046D#{65E8773D-8F56-11D0-A3B9-00A0C9223196}\GLOBAL".

Definition camProps : Props :=
  [("type", "2"); ("item", camDevice); ("name", "Webcam")].

Definition camItem : Item := item "{ID-3}" "{SRC-3}" LIVE "Webcam" camProps.

Definition playlistName : string := "Video Playlist - My Show".

Definition playlistProps (fields : Props) : Props :=
  (("type", "8") :: ("name", playlistName) :: fields)%list.

(** An HTML item named as a video playlist. *)
Definition playlistItem (fields : Props) : Item :=
  item "{ID-4}" "{SRC-4}" HTML playlistName (playlistProps fields).

(** The same record as a bare object exposing [FilePlaylist]. *)
Definition playlistObject (filePlaylist : jsval) : string -> jsval :=
  objectLiteral [("_type", JNum 8); ("_name", JStr playlistName);
                 ("FilePlaylist", filePlaylist);
                 ("_xmlparams", JObj (playlistProps []))].

End Samples.

Module SampleHosts.

(** The scene tree holds the items [{A}], [{B}], [{C}] and [{D}], all linked
    to one source; the id [{GONE}] is stale. *)
Definition linkedItem (id : string) : Item :=
  Samples.item id "{SRC-1}" FILE "clip" (Samples.clipProps "clip.mp4").

Definition sceneTree (id : string) : option Item :=
  if String.eqb id "{A}" || String.eqb id "{B}"
     || String.eqb id "{C}" || String.eqb id "{D}"
  then Some (linkedItem id) else None.

Definition host (extension plugin config : bool) (vsMin vsGlobalsrc : comparison)
  (itemlist : string) : Host :=
  mkHost extension plugin config vsMin vsGlobalsrc "{A}" sceneTree
    (fun _ _ => itemlist)
    (fun s => (scene_index s + 1)%Z)
    (fun it => "<item id=" ++ _id it ++ "/>").

(** A source plugin on a current host, one of four linked ids stale. *)
Definition plugin : Host := host false true false Gt Gt "{A},{GONE},{B},{C}".

(** A source plugin on a host older than the enumeration threshold. *)
Definition legacyPlugin : Host := host false true false Lt Lt "{A},{B}".

(** An extension on a current host, and on an old one. *)
Definition extension : Host := host true false false Gt Gt "{A},{B}".
Definition legacyExtension : Host := host true false false Lt Lt "{A},{B}".

End SampleHosts.

(* ===================================================================== *)
(** ** Vocabulary of the specification *)
(* ===================================================================== *)

(** The items whose scene search succeeds, in id-list order. *)
Definition resolvedInOrder (h : Host) (ids : list string) : list Item :=
  flat_map (fun id => match searchItemsById h id with
                      | Some it => [it]
                      | None => []
                      end) ids.

(** A host command that adds an item, whatever its link and scene part. *)
Definition isAdditem (c : HostCall) : bool :=
  match c with
  | CallFunc name _ =>
      JsString.endsWith "additem" name
  | _ => false
  end.

(** The distinct elements of a list, each at the place of its first
    occurrence. *)
Fixpoint firstOccurrences (l : list string) : list string :=
  match l with
  | [] => []
  | k :: l' => k :: filter (fun k' => negb (String.eqb k' k)) (firstOccurrences l')
  end.

(** The last item of the list whose source id is [k]. *)
Definition lastWithSrcId (k : string) (items : list Item) : option Item :=
  find (fun it => String.eqb (_srcId it) k) (rev items).

(** The two property names through which [uniqueObj] reaches
    [Object.prototype]. *)
Definition reservedKey (k : string) : bool :=
  String.eqb k "__proto__" || String.eqb k "hasOwnProperty".

(** Ascending order of array-index keys. *)
Definition indexLe (a b : string) : Prop :=
  match JsObject.array_index a, JsObject.array_index b with
  | Some x, Some y => (x <= y)%N
  | _, _ => False
  end.

(** The grouping loop on the list of own properties alone. *)
Definition upsertAll (l : list (string * Item)) (items : list Item)
  : list (string * Item) :=
  fold_left (fun l it => JsObject.upsert (_srcId it) it l) items l.

Definition memKey (k : string) (ks : list string) : bool :=
  existsb (String.eqb k) ks.

Definition addKey (ks : list string) (k : string) : list string :=
  if memKey k ks then ks else (ks ++ [k])%list.

Module SampleLists.

Definition itemOf (id srcid : string) : Item :=
  Samples.item id srcid FILE "clip" (("srcid", srcid) :: Samples.clipProps "clip.mp4").

(** A source plugin on a current host whose scene tree holds [items] and
    whose [itemlist] property is [itemlist]. *)
Definition hostOf (items : list Item) (itemlist : string) : Host :=
  mkHost false true false Gt Gt "{A}"
    (fun id => find (fun it => String.eqb (_id it) id) items)
    (fun _ _ => itemlist)
    (fun s => (scene_index s + 1)%Z)
    (fun it => "<item id=" ++ _id it ++ "/>").

(** Five items linked to one source and a sixth on its own. *)
Definition linkedFive : list Item :=
  [itemOf "{A}" "{SRC-1}"; itemOf "{B}" "{SRC-1}"; itemOf "{C}" "{SRC-2}";
   itemOf "{D}" "{SRC-1}"; itemOf "{E}" "{SRC-1}"; itemOf "{F}" "{SRC-1}"].

Definition linkedFiveHost : Host := hostOf linkedFive "{A},{B},{C},{D},{E},{F}".

(** Source ids that are array indices. *)
Definition numbered : list Item :=
  [itemOf "{A}" "2"; itemOf "{B}" "1"; itemOf "{C}" "{SRC-3}"; itemOf "{D}" "2"].

(** A source id that names the prototype slot. *)
Definition protoNamed : list Item := [itemOf "{A}" "__proto__"].

(** The same beside an ordinary source id. *)
Definition protoMixed : list Item :=
  [itemOf "{A}" "__proto__"; itemOf "{B}" "{SRC-1}"].

Definition protoMixedHost : Host := hostOf protoMixed "{A},{B}".

Definition protoNamedHost : Host := hostOf protoNamed "{A}".

(** A source id that shadows [hasOwnProperty]. *)
Definition shadowing : list Item := [itemOf "{A}" "hasOwnProperty"].

Definition shadowingHost : Host := hostOf shadowing "{A}".

End SampleLists.

(* ===================================================================== *)
(** ** Pinned options of [CameraItem] *)
(* ===================================================================== *)

Module CameraItem.

Section Slot.

(** [iItem.attach(id)], the slot an item id is addressed through; the
    function lives outside these files. *)
Variable attach : string -> string.

(** [setColorOptionsPinned(value)] *)
Definition setColorOptionsPinned (this : Item) (value : bool) : Async Item :=
  let slot := attach (_id this) in
  _ <- HostApi.iItem_set "prop:cc_pin" (if value then "1" else "0") slot ;;
  resolve this.

(** [getColorOptionsPinned()]: [val === '1' ? true : false] *)
Definition getColorOptionsPinned (h : Host) (this : Item) : Async bool :=
  let slot := attach (_id this) in
  val <- HostApi.iItem_get h "prop:cc_pin" (Some slot) ;;
  resolve (String.eqb val "1").

(** [setKeyingOptionsPinned(value)] *)
Definition setKeyingOptionsPinned (this : Item) (value : bool) : Async Item :=
  let slot := attach (_id this) in
  _ <- HostApi.iItem_set "prop:key_pin" (if value then "1" else "0") slot ;;
  resolve this.

(** [getKeyingOptionsPinned()] *)
Definition getKeyingOptionsPinned (h : Host) (this : Item) : Async bool :=
  let slot := attach (_id this) in
  val <- HostApi.iItem_get h "prop:key_pin" (Some slot) ;;
  resolve (String.eqb val "1").

End Slot.

End CameraItem.



(** An item as the property the grouping loop creates for it. *)
Definition keyed (u : Item) : string * Item := (_srcId u, u).

(** The number an array-index key denotes ([0] for any other key). *)
Definition indexValue (k : string) : N :=
  match JsObject.array_index k with
  | Some n => n
  | None => 0%N
  end.

(* ===================================================================== *)
(** ** The ready handshake ([ready], [setReady], [setOnce],
       [remoteVersion]) *)
(* ===================================================================== *)

Module Ready.

(** The module's variables, and whether [readyPromise] has been resolved.
    [xjsRemoteVersion] is declared without a value. *)
Record State := mkState {
  isReady : bool;
  isInit : bool;
  xjsRemoteVersion : jsval;
  readyResolved : bool
}.

(** What reaches the modules outside this file: [setMockVersion(v)] and
    [init()]. *)
Inductive Effect :=
| SetMockVersion (v : jsval)
| RunInit.

(** The state once the module body has run: the executor of
    [readyPromise] registers the listener for [xsplit-js-ready] and
    resolves only [if (isReady)], which is [false] at that point. *)
Definition loaded : State :=
  let isReady := false in
  mkState isReady false JUndefined isReady.

(** The [config] argument of [ready]: absent, or an object whose
    [version] and [remote] read as [undefined] when missing. *)
Record Config := mkConfig { version : jsval; remote : jsval }.

Definition is_undefined (v : jsval) : bool :=
  match v with JUndefined => true | _ => false end.

(** [setReady()] *)
Definition setReady (st : State) : State :=
  mkState true (isInit st) (xjsRemoteVersion st) (readyResolved st).

(** [setOnce()] *)
Definition setOnce (st : State) : State :=
  mkState (isReady st) true (xjsRemoteVersion st) (readyResolved st).

(** [ready(config)]; the promise it returns is [readyPromise], whose state
    is [readyResolved]. *)
Definition ready (config : option Config) (st : State) : State * list Effect :=
  let e1 := match config with
            | Some c => if negb (is_undefined (version c))
                        then [SetMockVersion (version c)] else []
            | None => []
            end in
  let e2 := match config with
            | Some c => if negb (is_undefined (remote c))
                        then [SetMockVersion (xjsRemoteVersion st)] else []
            | None => []
            end in
  let st1 := setReady st in
  if isReady st1 && negb (isInit st1)
  then (setOnce st1, (e1 ++ e2 ++ [RunInit])%list)
  else (st1, (e1 ++ e2)%list).

(** The loop of [remoteVersion] over [verArray], from index [i] on:
    [if (verArray[i] === 'Broadcaster') xjsRemoteVersion = verArray[i+1]];
    an index past the end reads as [undefined]. *)
Fixpoint scanTokens (verArray : list string) (current : jsval) : jsval :=
  match verArray with
  | [] => current
  | token :: rest =>
      scanTokens rest
        (if String.eqb token "Broadcaster"
         then match rest with
              | next :: _ => JStr next
              | [] => JUndefined
              end
         else current)
  end.

(** [remoteVersion(version)] *)
Definition remoteVersion (version : string) (st : State) : State :=
  let verArray := JsString.split " " version in
  mkState (isReady st) (isInit st)
    (scanTokens verArray (xjsRemoteVersion st)) (readyResolved st).

(** The listener of [xsplit-js-ready]: [resolve()]. *)
Definition readyEvent (st : State) : State :=
  mkState (isReady st) (isInit st) (xjsRemoteVersion st) true.

(** What can happen to the module after it is loaded. *)
Inductive Op :=
| CallReady (config : option Config)
| CallSetReady
| CallSetOnce
| CallRemoteVersion (version : string)
| FireReadyEvent.

Definition step (st : State) (op : Op) : State * list Effect :=
  match op with
  | CallReady config => ready config st
  | CallSetReady => (setReady st, [])
  | CallSetOnce => (setOnce st, [])
  | CallRemoteVersion v => (remoteVersion v st, [])
  | FireReadyEvent => (readyEvent st, [])
  end.

Fixpoint run (ops : list Op) (st : State) : State * list Effect :=
  match ops with
  | [] => (st, [])
  | op :: rest =>
      let (st1, e1) := step st op in
      let (st2, e2) := run rest st1 in
      (st2, (e1 ++ e2)%list)
  end.

(** The version [setMockVersion] was last called with, if it was called. *)
Fixpoint lastMockVersion (effects : list Effect) (current : option jsval)
  : option jsval :=
  match effects with
  | [] => current
  | SetMockVersion v :: rest => lastMockVersion rest (Some v)
  | RunInit :: rest => lastMockVersion rest current
  end.

Definition isRunInit (e : Effect) : bool :=
  match e with RunInit => true | _ => false end.

Definition isCallReady (op : Op) : bool :=
  match op with CallReady _ => true | _ => false end.

Definition isCallSetOnce (op : Op) : bool :=
  match op with CallSetOnce => true | _ => false end.

Definition isFireReadyEvent (op : Op) : bool :=
  match op with FireReadyEvent => true | _ => false end.

End Ready.
(* ===================================================================== *)
(** * Properties *)
(* ===================================================================== *)

(** ** Sanity checks of the string and object primitives *)

Example split_three : JsString.split "," "a,b,,c" = ["a"; "b"; ""; "c"].
Proof. reflexivity. Qed.

Example split_empty : JsString.split "," "" = [""].
Proof. reflexivity. Qed.

Example indexOf_found : JsString.indexOf "xxabc" "abc" = 2%Z.
Proof. reflexivity. Qed.

Example indexOf_missing : JsString.indexOf "xxabd" "abc" = (-1)%Z.
Proof. reflexivity. Qed.

Example of_Z_neg : JsString.of_Z (-12) = "-12".
Proof. reflexivity. Qed.

Example array_index_7 : JsObject.array_index "7" = Some 7%N.
Proof. reflexivity. Qed.

Example array_index_leading_zero : JsObject.array_index "07" = None.
Proof. reflexivity. Qed.

Example array_index_guid : JsObject.array_index "{A1}" = None.
Proof. reflexivity. Qed.

Example array_index_too_big : JsObject.array_index "4294967295" = None.
Proof. reflexivity. Qed.

(** ** Strings *)

Lemma startsWith_spec (p s : string) :
  JsString.startsWith p s = true <-> exists rest, s = p ++ rest.
Proof.
  revert s. induction p as [|a p IH]; intros s; simpl.
  - split; [intros _; now exists s | reflexivity].
  - destruct s as [|b s].
    + split; [discriminate | intros [r Hr]; discriminate].
    + rewrite andb_true_iff, Ascii.eqb_eq, IH. split.
      * intros [-> [r ->]]. now exists r.
      * intros [r Hr]. injection Hr as -> ->. split; [reflexivity | now exists r].
Qed.

Lemma indexOf_range (s p : string) :
  JsString.indexOf s p = (-1)%Z \/ (0 <= JsString.indexOf s p)%Z.
Proof.
  induction s as [|c s IH]; simpl.
  - destruct (JsString.startsWith p ""); [right; lia | now left].
  - destruct (JsString.startsWith p (String c s)); [right; lia |].
    destruct (Z.eqb_spec (JsString.indexOf s p) (-1)); [now left | right; lia].
Qed.

Lemma indexOf_zero (s p : string) :
  (JsString.indexOf s p =? 0)%Z = JsString.startsWith p s.
Proof.
  destruct s as [|c s]; simpl.
  - now destruct (JsString.startsWith p "").
  - destruct (JsString.startsWith p (String c s)); [reflexivity |].
    destruct (Z.eqb_spec (JsString.indexOf s p) (-1)); [reflexivity |].
    destruct (indexOf_range s p); lia.
Qed.

Lemma endsWith_spec (p s : string) :
  JsString.endsWith p s = true <-> exists front, s = front ++ p.
Proof.
  induction s as [|c s IH]; simpl.
  - rewrite orb_false_r, String.eqb_eq. split.
    + intros ->. now exists "".
    + intros [f Hf]. destruct f; simpl in Hf; [auto | discriminate].
  - rewrite orb_true_iff, String.eqb_eq, IH. split.
    + intros [-> | [f ->]]; [now exists "" | now exists (String c f)].
    + intros [f Hf]. destruct f as [|d f]; simpl in Hf.
      * now left.
      * injection Hf as _ ->. right. now exists f.
Qed.

Lemma indexOf_absent (s p : string) :
  JsString.indexOf s p = (-1)%Z <-> forall a b, s <> a ++ p ++ b.
Proof.
  induction s as [|c s IH]; simpl.
  - destruct (JsString.startsWith p "") eqn:Hp.
    + apply startsWith_spec in Hp as [r Hr]. split; [discriminate |].
      intros H. elim (H "" r). exact Hr.
    + split; [| reflexivity]. intros _ a b Hab.
      destruct a; [| discriminate]. simpl in Hab.
      assert (JsString.startsWith p "" = true)
        by (apply startsWith_spec; now exists b).
      congruence.
  - destruct (JsString.startsWith p (String c s)) eqn:Hp.
    + apply startsWith_spec in Hp as [r Hr]. split; [discriminate |].
      intros H. elim (H "" r). exact Hr.
    + assert (Hstep : (forall a b, String c s <> a ++ p ++ b)
                      <-> (forall a b, s <> a ++ p ++ b)).
      { split; intros H a b Hab.
        - apply (H (String c a) b). simpl. now rewrite Hab.
        - destruct a as [|d a]; simpl in Hab.
          + assert (JsString.startsWith p (String c s) = true)
              by (apply startsWith_spec; now exists b).
            congruence.
          + injection Hab as _ Hab. now apply (H a b). }
      rewrite Hstep, <- IH.
      destruct (Z.eqb_spec (JsString.indexOf s p) (-1)); [tauto |].
      destruct (indexOf_range s p); split; intros; lia.
Qed.

(** ** Classification *)

Lemma is_empty_string_spec (v : jsval) :
  Js.is_empty_string v = true <-> v = JStr "".
Proof.
  destruct v; simpl; try (split; [discriminate | intros H; discriminate H]).
  rewrite String.eqb_eq. split; [now intros -> | now intros [= ->]].
Qed.

(** An instance passes through [typePromise] without an exception unless
    it is an HTML or FILE item whose [_name] is not a string: the [LIVE]
    rules, the only other place a method is called on a property, are
    guarded by a read of [type], which instances do not have. *)
Lemma typePromise_item_raises_iff (it : Item) :
  typePromise (Item_get it) = None <-> nameRaises it = true.
Proof.
  unfold typePromise, Item_get, nameRaises; simpl.
  destruct (Z.eqb_spec (_type it) 7) as [E | _];
    [rewrite E; simpl; split; discriminate |].
  destruct (Z.eqb_spec (_type it) 8) as [E | _];
    [rewrite E; simpl; destruct (_name it); simpl;
     repeat match goal with
            | |- context [if ?b then _ else _] => destruct b; simpl
            end; split; (discriminate || reflexivity) |].
  destruct (Z.eqb_spec (_type it) 1) as [E | _];
    [rewrite E; simpl; destruct (_name it); simpl;
     repeat match goal with
            | |- context [if ?b then _ else _] => destruct b; simpl
            end; split; (discriminate || reflexivity) |].
  simpl.
  repeat match goal with
         | |- context [if ?b then _ else _] => destruct b; simpl
         end; split; discriminate.
Qed.

Lemma typePromise_item_params (it : Item) (r : ConcreteSource) :
  typePromise (Item_get it) = Some r -> params r = JObj (_xmlparams it).
Proof.
  unfold typePromise, Item_get; simpl.
  destruct (_name it); simpl;
    repeat match goal with
           | |- context [if ?b then _ else _] => destruct b; simpl
           end; intros [= <-]; reflexivity.
Qed.

Lemma typePromise_item_total (it : Item) :
  nameRaises it = false ->
  exists c, typePromise (Item_get it) = Some (mkSource c (JObj (_xmlparams it))).
Proof.
  intros H. destruct (typePromise (Item_get it)) as [[c p]|] eqn:Ht.
  - apply typePromise_item_params in Ht as Hp. simpl in Hp. subst p.
    now exists c.
  - apply typePromise_item_raises_iff in Ht. congruence.
Qed.

(** C2, as the code has it: for a FILE record that the Video Playlist rule
    does not take (its name is a string that does not start with
    [Video Playlist], or its [FilePlaylist] is the empty string), let [s]
    be the string the classifier tests, the string form of
    [source['item']].  Classification yields ImageSource exactly when [s]
    ends with the lower-case suffix [.gif]; the test is a case-sensitive
    suffix test, so [clip.GIF] and [clip.gif.bak] both classify as
    MediaSource. *)
Theorem C2_gif_suffix_case_sensitive (source : string -> jsval) (n s : string) :
  source "_type" = JNum (ItemTypes_num FILE) ->
  source "_name" = JStr n ->
  JsString.startsWith "Video Playlist" n = false
  \/ source "FilePlaylist" = JStr "" ->
  Js.ToString (source "item") = s ->
  (option_map kind (typePromise source) = Some ImageSource
     <-> exists front, s = front ++ ".gif")
  /\ (s = "clip.GIF" \/ s = "clip.gif.bak" ->
      option_map kind (typePromise source) = Some MediaSource).
Proof.
  intros Ht Hn Hp Hs. unfold typePromise.
  rewrite Ht, Hn. cbn [Js.Number Js.is_type ItemTypes_num Z.eqb Pos.eqb
                       Js.indexOf orb].
  rewrite indexOf_zero.
  assert (Hrule : JsString.startsWith "Video Playlist" n
                  && negb (Js.is_empty_string (source "FilePlaylist")) = false).
  { destruct Hp as [Hp | Hp].
    - now rewrite Hp.
    - apply is_empty_string_spec in Hp. rewrite Hp. apply andb_false_r. }
  rewrite Hrule.
  unfold Js.test_gif, Js.test_gif_xbs, Js.test_stream. rewrite Hs.
  cbn [andb orb negb].
  split.
  - rewrite <- endsWith_spec.
    destruct (JsString.endsWith ".gif" s); simpl; [tauto |].
    split; [| discriminate].
    repeat match goal with
           | |- context [if ?b then _ else _] => destruct b; simpl
           | |- context [match ?o with Some _ => _ | None => _ end] =>
               destruct o; simpl
           end; discriminate.
  - intros [-> | ->]; reflexivity.
Qed.

Lemma C2_gif_suffix_case_sensitive_witness :
  option_map kind (typePromise (Samples.clipObject "clip.gif.bak"))
  = Some MediaSource
  /\ option_map kind (typePromise (Samples.clipObject "clip.gif"))
     = Some ImageSource
  /\ option_map kind (typePromise (Samples.namedLikePlaylist "a.gif"))
     = Some ImageSource.
Proof.
  split; [| split].
  - apply (proj2 (@C2_gif_suffix_case_sensitive
                    (Samples.clipObject "clip.gif.bak") "clip" "clip.gif.bak"
                    eq_refl eq_refl (or_introl eq_refl) eq_refl)).
    right. reflexivity.
  - apply (proj1 (@C2_gif_suffix_case_sensitive
                    (Samples.clipObject "clip.gif") "clip" "clip.gif"
                    eq_refl eq_refl (or_introl eq_refl) eq_refl)).
    exists "clip". reflexivity.
  - apply (proj1 (@C2_gif_suffix_case_sensitive
                    (Samples.namedLikePlaylist "a.gif") "Video Playlist x" "a.gif"
                    eq_refl eq_refl (or_intror eq_refl) eq_refl)).
    exists "a". reflexivity.
Defined.

(** C2 fails as stated: a FILE record whose identity string is [clip.GIF]
    ends with [.gif] up to letter case, yet it classifies as MediaSource,
    both as an [Item] instance and as a bare object exposing [item]. *)
Lemma C2_upper_case_gif_is_media :
  JsString.lower "clip.GIF" = "clip" ++ ".gif"
  /\ _type (Samples.clipItem "clip.GIF") = ItemTypes_num FILE
  /\ option_map kind (typePromise (Item_get (Samples.clipItem "clip.GIF")))
     = Some MediaSource
  /\ option_map kind (typePromise (Samples.clipObject "clip.GIF"))
     = Some MediaSource.
Proof. repeat split. Qed.

(** The LIVE rules on a record that exposes [type] and [item]: the record
    is an AudioSource when its identity string contains the audio GUID and
    a CameraSource when it does not. *)
Lemma live_rules_on_exposed_properties (source : string -> jsval) (s : string) :
  source "_type" = JNum (ItemTypes_num LIVE) ->
  Js.Number (source "type") = Some (ItemTypes_num LIVE) ->
  source "item" = JStr s ->
  ((exists a b, s = a ++ audioGuid ++ b) ->
   option_map kind (typePromise source) = Some AudioSource)
  /\ ((forall a b, s <> a ++ audioGuid ++ b) ->
      option_map kind (typePromise source) = Some CameraSource).
Proof.
  intros Ht Hty Hs. unfold typePromise. rewrite Ht, Hty, Hs. simpl.
  split; intros H.
  - destruct (Z.eqb_spec (JsString.indexOf s audioGuid) (-1)) as [Hi | _];
      [| reflexivity].
    destruct H as (a & b & Hab).
    now elim (proj1 (indexOf_absent s audioGuid) Hi a b).
  - rewrite (proj2 (indexOf_absent s audioGuid) H). reflexivity.
Qed.

(** C3, what the code does: an instance whose [_type] is LIVE reaches the
    LIVE rules, which read [source['type']]; an instance has no such
    property, the read is [undefined], [Number] of it is [NaN], and the
    record ends as a generic Source whatever its identity string. *)
Theorem C3_live_item_is_generic (it : Item) :
  _type it = ItemTypes_num LIVE ->
  typePromise (Item_get it) = Some (mkSource GenericSource (JObj (_xmlparams it))).
Proof.
  intros H. unfold typePromise, Item_get. simpl. rewrite H. reflexivity.
Qed.

Lemma C3_live_item_is_generic_witness :
  JsString.indexOf Samples.micDevice audioGuid = 11%Z
  /\ option_map kind (typePromise (Item_get Samples.micItem)) = Some GenericSource
  /\ option_map kind (typePromise (Item_get Samples.camItem)) = Some GenericSource.
Proof.
  split; [reflexivity |].
  split.
  - rewrite (C3_live_item_is_generic Samples.micItem); reflexivity.
  - rewrite (C3_live_item_is_generic Samples.camItem); reflexivity.
Defined.

(** C4, as the code has it: for a record of type HTML or FILE whose name
    starts with [Video Playlist], classification yields VideoPlaylistSource
    exactly when the value read from [source['FilePlaylist']] is not the
    empty string (an absent property reads as [undefined] and passes); an
    HTML record whose [FilePlaylist] is the empty string falls through to
    HtmlSource. *)
Theorem C4_playlist_unless_empty_string
  (source : string -> jsval) (t : ItemTypes) (n : string) :
  t = HTML \/ t = FILE ->
  source "_type" = JNum (ItemTypes_num t) ->
  source "_name" = JStr n ->
  (exists rest, n = "Video Playlist" ++ rest) ->
  (option_map kind (typePromise source) = Some VideoPlaylistSource
     <-> source "FilePlaylist" <> JStr "")
  /\ (t = HTML -> source "FilePlaylist" = JStr "" ->
      option_map kind (typePromise source) = Some HtmlSource).
Proof.
  intros Ht Hty Hn Hp. apply startsWith_spec in Hp.
  unfold typePromise. rewrite Hty, Hn. simpl.
  rewrite indexOf_zero, Hp. simpl.
  rewrite <- is_empty_string_spec.
  destruct (Js.is_empty_string (source "FilePlaylist")); simpl.
  - destruct Ht as [-> | ->]; simpl.
    + split; [split; [discriminate | intros H; now elim H] | reflexivity].
    + split; [| discriminate].
      split; [| intros H; now elim H].
      repeat match goal with
             | |- context [if ?b then _ else _] => destruct b; simpl
             | |- context [match ?o with Some _ => _ | None => _ end] =>
                 destruct o; simpl
             end; discriminate.
  - destruct Ht as [-> | ->]; simpl;
      (split; [split; [discriminate | reflexivity] | discriminate]).
Qed.

Lemma C4_playlist_unless_empty_string_witness :
  option_map kind (typePromise (Samples.playlistObject (JStr "a.xbpl")))
  = Some VideoPlaylistSource
  /\ option_map kind (typePromise (Samples.playlistObject (JStr "")))
     = Some HtmlSource.
Proof.
  split.
  - apply (proj1 (C4_playlist_unless_empty_string
               (Samples.playlistObject (JStr "a.xbpl")) (t := HTML)
               (n := Samples.playlistName)
               (or_introl eq_refl) eq_refl eq_refl
               (ex_intro _ " - My Show" eq_refl))).
    discriminate.
  - apply (proj2 (C4_playlist_unless_empty_string
               (Samples.playlistObject (JStr "")) (t := HTML)
               (n := Samples.playlistName)
               (or_introl eq_refl) eq_refl eq_refl
               (ex_intro _ " - My Show" eq_refl))); reflexivity.
Defined.

(** C4 fails as stated: an HTML record named [Video Playlist - My Show]
    with no [FilePlaylist] property classifies as VideoPlaylistSource, both
    as an [Item] instance and as a bare object; the claim sends it to
    HtmlSource. *)
Lemma C4_absent_FilePlaylist_is_playlist :
  Item_get (Samples.playlistItem []) "FilePlaylist" = JUndefined
  /\ option_map kind (typePromise (Item_get (Samples.playlistItem [])))
     = Some VideoPlaylistSource
  /\ option_map kind (typePromise (Samples.playlistObject JUndefined))
     = Some VideoPlaylistSource.
Proof. repeat split. Qed.

(** ** Enumeration *)

Lemma itemPromises_all_resolve (h : Host) (ids : list string) :
  all_outcomes (map (@outcome _) (map (itemPromise h) ids))
  = Resolved (map (searchItemsById h) ids).
Proof.
  induction ids as [|id ids IH]; simpl; [reflexivity |].
  rewrite IH. now destruct (searchItemsById h id).
Qed.

Lemma itemPromises_calls (h : Host) (ids : list string) :
  flat_map (@calls _) (map (itemPromise h) ids) = map SearchItemsById ids.
Proof.
  induction ids as [|id ids IH]; simpl; [reflexivity | now rewrite IH].
Qed.

Lemma filterNotNull_resolvedInOrder (h : Host) (ids : list string) :
  filterNotNull (map (searchItemsById h) ids) = resolvedInOrder h ids.
Proof.
  unfold resolvedInOrder.
  induction ids as [|id ids IH]; simpl; [reflexivity |].
  destruct (searchItemsById h id); simpl; now rewrite IH.
Qed.

(** The handler of the id list searches every id, in order, and resolves
    with the items found. *)
Lemma resolveItemList_run (h : Host) (itemlist : string) :
  resolveItemList h itemlist
  = mkAsync (map SearchItemsById (JsString.split "," itemlist))
            (Resolved (resolvedInOrder h (JsString.split "," itemlist))).
Proof.
  unfold resolveItemList, andThen, Promise_all. simpl.
  rewrite itemPromises_all_resolve, itemPromises_calls. simpl.
  now rewrite app_nil_r, filterNotNull_resolvedInOrder.
Qed.

(** C5, what the code does: on a host older than the minimum version,
    [Source.getItemList] (outside the extension context) issues one host
    call, the scene search for the base id, and [item.getItemList] one, the
    search for the item's own id; neither reads [itemlist].  When the
    search finds the item the result is the single-element sequence
    holding it.  When the search fails nothing handles the rejection (the
    list path has a [catch], this path has none): the promise is left
    unsettled and no sequence is returned. *)
Theorem C5_legacy_search_is_unhandled (h : Host) (this : Item) :
  lessThan (cmp_minVersion h) = true ->
  (isExtension h = false ->
   Source_getItemList h
   = mkAsync [SearchItemsById (getBaseId h)]
       match searchItemsById h (getBaseId h) with
       | Some it => Resolved [it]
       | None => Pending
       end)
  /\ Item_getItemList h this
     = mkAsync [SearchItemsById (_id this)]
         match searchItemsById h (_id this) with
         | Some it => Resolved [it]
         | None => Pending
         end.
Proof.
  intros Hlt. unfold Source_getItemList, Item_getItemList. rewrite Hlt.
  unfold andThen, HostApi.Scene_searchItemsById. simpl. split.
  - intros ->. now destruct (searchItemsById h (getBaseId h)).
  - now destruct (searchItemsById h (_id this)).
Qed.

Lemma C5_legacy_search_is_unhandled_witness :
  searchItemsById SampleHosts.legacyPlugin "{GONE}" = None
  /\ Item_getItemList SampleHosts.legacyPlugin (SampleHosts.linkedItem "{GONE}")
     = mkAsync [SearchItemsById "{GONE}"] Pending
  /\ Source_getItemList SampleHosts.legacyPlugin
     = mkAsync [SearchItemsById "{A}"] (Resolved [SampleHosts.linkedItem "{A}"]).
Proof.
  destruct (@C5_legacy_search_is_unhandled SampleHosts.legacyPlugin
              (SampleHosts.linkedItem "{GONE}") eq_refl) as [HS HI].
  split; [reflexivity |]. split.
  - exact HI.
  - exact (HS eq_refl).
Defined.

(** C6: when an id list is read (the host is not older than the minimum
    version; for [Source.getItemList] also: a source plugin or source
    configuration window, not an extension), enumeration searches every id
    of the list and resolves with exactly the items whose search
    succeeded, in id-list order; a failed search is dropped and rejects
    nothing. *)
Theorem C6_failed_ids_are_dropped (h : Host) (this : Item) :
  lessThan (cmp_minVersion h) = false ->
  (isExtension h = false ->
   isSourcePlugin h || isSourceConfig h = true ->
   outcome (Source_getItemList h)
   = Resolved (resolvedInOrder h
                 (JsString.split "," (itemProperty h "itemlist" None))))
  /\ outcome (Item_getItemList h this)
     = Resolved (resolvedInOrder h
                   (JsString.split ","
                      (itemProperty h "itemlist" (Some (_id this))))).
Proof.
  intros Hlt. unfold Source_getItemList, Item_getItemList. rewrite Hlt.
  split.
  - intros -> ->. unfold andThen. simpl. now rewrite resolveItemList_run.
  - unfold andThen. simpl. now rewrite resolveItemList_run.
Qed.

Lemma C6_failed_ids_are_dropped_witness :
  searchItemsById SampleHosts.plugin "{GONE}" = None
  /\ outcome (Source_getItemList SampleHosts.plugin)
     = Resolved [SampleHosts.linkedItem "{A}"; SampleHosts.linkedItem "{B}";
                 SampleHosts.linkedItem "{C}"]
  /\ outcome (Item_getItemList SampleHosts.plugin (SampleHosts.linkedItem "{A}"))
     = Resolved [SampleHosts.linkedItem "{A}"; SampleHosts.linkedItem "{B}";
                 SampleHosts.linkedItem "{C}"].
Proof.
  pose proof (C6_failed_ids_are_dropped SampleHosts.plugin
                (SampleHosts.linkedItem "{A}") eq_refl) as [HS HI].
  split; [reflexivity |]. split.
  - rewrite (HS eq_refl eq_refl). reflexivity.
  - rewrite HI. reflexivity.
Defined.

(** C7, as the code has it: in the extension context
    [Source.getItemList] and [Source.getCurrentSource] reject with
    [Extensions do not have sources associated with them.],
    [Item.getSource] rejects with [Does not work here!], and none of the
    three issues a host call: no item is resolved. *)
Theorem C7_extension_rejects (h : Host) :
  isExtension h = true ->
  Source_getItemList h = mkAsync [] (Rejected extensionError)
  /\ Source_getCurrentSource h = mkAsync [] (Rejected extensionError)
  /\ Item_getSource h = mkAsync [] (Rejected getSourceError).
Proof.
  intros H. unfold Source_getItemList, Source_getCurrentSource, Item_getSource.
  rewrite H. repeat split.
Qed.

Lemma C7_extension_rejects_witness :
  calls (Source_getItemList SampleHosts.extension) = []
  /\ calls (Source_getCurrentSource SampleHosts.extension) = []
  /\ calls (Item_getSource SampleHosts.extension) = [].
Proof.
  destruct (C7_extension_rejects SampleHosts.extension eq_refl) as (H1 & H2 & H3).
  rewrite H1, H2, H3. repeat split.
Defined.

(** C7 fails as stated: the rejection of [Item.getSource] in the extension
    context does not say that extensions have no sources; its message is
    the placeholder [Does not work here!]. *)
Lemma C7_getSource_message_differs :
  isExtension SampleHosts.extension = true
  /\ outcome (Item_getSource SampleHosts.extension)
     = Rejected "Does not work here!"
  /\ outcome (Item_getSource SampleHosts.extension)
     <> Rejected extensionError.
Proof. repeat split. discriminate. Qed.

(** ** Duplication *)

(** C8, as the code has it: on a host at or above the global-source
    threshold, when [options.scene] is present and is not a [Scene],
    [duplicate] rejects with [Invalid parameters] and issues no [additem]
    command; it issues no host call at all unless [options.linked] is
    true, in which case the write of [prop:keeploaded] has already been
    issued when the scene is examined. *)
Theorem C8_invalid_scene_rejects
  (h : Host) (this : Item) (l : option bool) (v : jsval) :
  lessThan (cmp_globalsrcMinVersion h) = false ->
  v <> JUndefined ->
  outcome (Item_duplicate h this (Some (mkOptions l (SceneOther v))))
  = Rejected "Invalid parameters"
  /\ calls (Item_duplicate h this (Some (mkOptions l (SceneOther v))))
     = (if truthy_linked l
        then [ItemSet "prop:keeploaded" "1" (_id this)] else [])
  /\ forallb (fun c => negb (isAdditem c))
       (calls (Item_duplicate h this (Some (mkOptions l (SceneOther v)))))
     = true.
Proof.
  intros Hv Hu. unfold Item_duplicate. rewrite Hv. cbn [scene linked].
  assert (Hs : scene_is_undefined (SceneOther v) = false)
    by (destruct v; simpl; congruence).
  rewrite Hs. simpl.
  destruct l as [[|]|]; simpl; repeat split.
Qed.

Lemma C8_invalid_scene_rejects_witness :
  Item_duplicate SampleHosts.plugin (SampleHosts.linkedItem "{A}")
    (Some (mkOptions (Some false) (SceneOther (JStr "scene 2"))))
  = mkAsync [] (Rejected "Invalid parameters").
Proof.
  destruct (C8_invalid_scene_rejects SampleHosts.plugin
              (SampleHosts.linkedItem "{A}") (Some false)
              (v := JStr "scene 2") eq_refl) as (Ho & Hc & _).
  - discriminate.
  - destruct (Item_duplicate _ _ _) as [c o]. simpl in Ho, Hc.
    now rewrite Ho, Hc.
Defined.

(** C8 fails as stated: with [linked: true] and a [scene] that is not a
    [Scene], the rejection comes after one host call, the write of
    [prop:keeploaded]. *)
Lemma C8_linked_true_writes_before_rejecting :
  lessThan (cmp_globalsrcMinVersion SampleHosts.plugin) = false
  /\ Item_duplicate SampleHosts.plugin (SampleHosts.linkedItem "{A}")
       (Some (mkOptions (Some true) (SceneOther (JStr "scene 2"))))
     = mkAsync [ItemSet "prop:keeploaded" "1" "{A}"]
               (Rejected "Invalid parameters").
Proof. split; reflexivity. Qed.

(** C9: on a host at or above the global-source threshold,
    [duplicate({linked: true, scene: S})] with a [Scene] [S] issues, in
    this order, the write of ['1'] to [prop:keeploaded], the resolution of
    the scene number, and the command [link:1|s:<number>|additem] with the
    serialized item; the write precedes the command. *)
Theorem C9_keeploaded_before_additem (h : Host) (this : Item) (S : Scene) :
  lessThan (cmp_globalsrcMinVersion h) = false ->
  Item_duplicate h this (Some (mkOptions (Some true) (SceneRef S)))
  = mkAsync [ItemSet "prop:keeploaded" "1" (_id this);
             GetSceneNumber S;
             CallFunc ("link:1|s:" ++ JsString.of_Z (getSceneNumber h S)
                         ++ "|additem")
                      (toXMLString h this)]
            (Resolved this).
Proof.
  intros Hv. unfold Item_duplicate. rewrite Hv. reflexivity.
Qed.

Lemma C9_keeploaded_before_additem_witness :
  calls (Item_duplicate SampleHosts.plugin (SampleHosts.linkedItem "{A}")
           (Some (mkOptions (Some true) (SceneRef (mkScene 2)))))
  = [ItemSet "prop:keeploaded" "1" "{A}";
     GetSceneNumber (mkScene 2);
     CallFunc "link:1|s:3|additem" "<item id={A}/>"].
Proof.
  rewrite (C9_keeploaded_before_additem SampleHosts.plugin
             (SampleHosts.linkedItem "{A}") (mkScene 2) eq_refl).
  reflexivity.
Defined.

(** ** The grouping object *)

Lemma memKey_In (k : string) (ks : list string) :
  memKey k ks = true <-> In k ks.
Proof.
  unfold memKey. rewrite existsb_exists. split.
  - intros [x [Hx He]]. apply String.eqb_eq in He. now subst.
  - intros H. exists k. split; [exact H | apply String.eqb_refl].
Qed.

Lemma keys_upsert (k : string) (v : Item) (l : list (string * Item)) :
  map fst (JsObject.upsert k v l) = addKey (map fst l) k.
Proof.
  unfold addKey, memKey.
  induction l as [|[k' v'] l IH]; simpl; [reflexivity |].
  destruct (String.eqb k k'); simpl; [reflexivity |].
  rewrite IH. now destruct (existsb (String.eqb k) (map fst l)).
Qed.

Lemma keys_upsertAll (items : list Item) (l : list (string * Item)) :
  map fst (upsertAll l items) = fold_left addKey (map _srcId items) (map fst l).
Proof.
  revert l. induction items as [|it items IH]; intros l; simpl; [reflexivity |].
  unfold upsertAll in *. simpl. now rewrite IH, keys_upsert.
Qed.

Lemma filter_filter {A} (P Q : A -> bool) (l : list A) :
  filter P (filter Q l) = filter (fun x => Q x && P x) l.
Proof.
  induction l as [|x l IH]; simpl; [reflexivity |].
  destruct (Q x); simpl; [destruct (P x) |]; now rewrite IH.
Qed.

Lemma fold_addKey (ids ks : list string) :
  fold_left addKey ids ks
  = (ks ++ filter (fun k => negb (memKey k ks)) (firstOccurrences ids))%list.
Proof.
  revert ks. induction ids as [|k ids IH]; intros ks; simpl.
  - now rewrite app_nil_r.
  - rewrite IH. unfold addKey. destruct (memKey k ks) eqn:Hk; simpl.
    + f_equal. rewrite filter_filter. apply filter_ext. intros x.
      destruct (String.eqb_spec x k) as [-> | Hx]; simpl; [now rewrite Hk | reflexivity].
    + rewrite <- app_assoc. simpl. do 2 f_equal.
      rewrite filter_filter. apply filter_ext. intros x.
      unfold memKey. rewrite existsb_app. simpl. rewrite orb_false_r.
      destruct (String.eqb x k); simpl;
        [now rewrite orb_true_r | now rewrite orb_false_r].
Qed.

Lemma keys_group (items : list Item) :
  map fst (upsertAll [] items) = firstOccurrences (map _srcId items).
Proof.
  rewrite keys_upsertAll, fold_addKey. simpl.
  induction (firstOccurrences (map _srcId items)) as [|x l IH]; simpl;
    [reflexivity | now rewrite IH].
Qed.

Lemma firstOccurrences_In (k : string) (l : list string) :
  In k (firstOccurrences l) <-> In k l.
Proof.
  induction l as [|x l IH]; simpl; [tauto |].
  rewrite filter_In, IH, negb_true_iff.
  destruct (String.eqb_spec k x) as [-> | Hn]; [tauto |].
  split; [tauto | intros [H | H]; [now elim Hn | tauto]].
Qed.

Lemma firstOccurrences_NoDup (l : list string) : NoDup (firstOccurrences l).
Proof.
  induction l as [|x l IH]; simpl; constructor.
  - rewrite filter_In, String.eqb_refl. simpl. intros [_ H]. discriminate.
  - now apply NoDup_filter.
Qed.

Lemma upsert_NoDup (k : string) (v : Item) (l : list (string * Item)) :
  NoDup (map fst l) -> NoDup (map fst (JsObject.upsert k v l)).
Proof.
  intros H. rewrite keys_upsert. unfold addKey.
  destruct (memKey k (map fst l)) eqn:Hk; [exact H |].
  apply NoDup_app; [exact H | repeat constructor; intros [] | ].
  intros x Hx [<- | []].
  apply memKey_In in Hx. congruence.
Qed.

Lemma In_upsert (k k0 : string) (v v0 : Item) (l : list (string * Item)) :
  NoDup (map fst l) ->
  In (k, v) (JsObject.upsert k0 v0 l) ->
  (k = k0 /\ v = v0) \/ (k <> k0 /\ In (k, v) l).
Proof.
  induction l as [|[k' v'] l IH]; simpl; intros Hnd Hin.
  - destruct Hin as [[= <- <-] | []]. now left.
  - inversion Hnd as [|? ? Hk' Hnd']; subst.
    destruct (String.eqb_spec k0 k') as [-> | Hne]; simpl in Hin.
    + destruct Hin as [[= <- <-] | Hin]; [now left |].
      right. split; [| now right].
      intros ->. apply Hk'. now apply (in_map fst) in Hin.
    + destruct Hin as [[= <- <-] | Hin].
      * right. split; [congruence | now left].
      * destruct (IH Hnd' Hin) as [H | [H1 H2]]; [now left | right; auto].
Qed.

Lemma lastWithSrcId_cons (k : string) (it : Item) (items : list Item) :
  lastWithSrcId k (it :: items)
  = match lastWithSrcId k items with
    | Some v => Some v
    | None => if String.eqb (_srcId it) k then Some it else None
    end.
Proof.
  unfold lastWithSrcId. simpl.
  induction (rev items) as [|x l IH]; simpl; [reflexivity |].
  now destruct (String.eqb (_srcId x) k).
Qed.

(** Every property of the grouping object holds the last item carrying its
    key, or is a property that was there before and that no item
    touched. *)
Lemma upsertAll_last (items : list Item) (l : list (string * Item))
  (k : string) (v : Item) :
  NoDup (map fst l) ->
  In (k, v) (upsertAll l items) ->
  lastWithSrcId k items = Some v
  \/ (lastWithSrcId k items = None /\ In (k, v) l).
Proof.
  revert l. induction items as [|it items IH]; intros l Hnd Hin.
  - right. split; [reflexivity | exact Hin].
  - change (upsertAll l (it :: items))
      with (upsertAll (JsObject.upsert (_srcId it) it l) items) in Hin.
    rewrite lastWithSrcId_cons.
    destruct (IH _ (@upsert_NoDup _ _ _ Hnd) Hin) as [H | [H Hl]];
      rewrite H; [now left |].
    destruct (@In_upsert _ _ _ _ _ Hnd Hl) as [[-> ->] | [Hne Hl']].
    + rewrite String.eqb_refl. now left.
    + right. split; [| exact Hl'].
      destruct (String.eqb_spec (_srcId it) k); [congruence | reflexivity].
Qed.

Lemma lastWithSrcId_Some (k : string) (items : list Item) (v : Item) :
  lastWithSrcId k items = Some v -> In v items /\ _srcId v = k.
Proof.
  unfold lastWithSrcId. intros H. apply find_some in H as [Hi He].
  split; [now apply in_rev | now apply String.eqb_eq].
Qed.

Lemma group_entries (items : list Item) (k : string) (v : Item) :
  In (k, v) (upsertAll [] items) ->
  lastWithSrcId k items = Some v /\ _srcId v = k.
Proof.
  intros H. destruct (@upsertAll_last items [] k v (NoDup_nil _) H) as [Hl | [_ []]].
  split; [exact Hl | now apply lastWithSrcId_Some in Hl].
Qed.

(** Without the key [__proto__] the own properties of [uniqueObj] are those
    the grouping loop creates. *)
Lemma own_fold_set (items : list Item) (o : JsObject.t Item) :
  Forall (fun it => String.eqb (_srcId it) "__proto__" = false) items ->
  JsObject.own (fold_left (fun o it => JsObject.set (_srcId it) it o) items o)
  = upsertAll (JsObject.own o) items.
Proof.
  revert o. induction items as [|it items IH]; intros o H; [reflexivity |].
  inversion H as [|? ? Hit Hrest]; subst. simpl.
  rewrite (IH _ Hrest). unfold JsObject.set. now rewrite Hit.
Qed.

Lemma own_groupBySrcId (items : list Item) :
  Forall (fun it => String.eqb (_srcId it) "__proto__" = false) items ->
  JsObject.own (groupBySrcId items) = upsertAll [] items.
Proof. intros H. unfold groupBySrcId. now rewrite own_fold_set. Qed.

Lemma lookup_None_keys (k : string) (l : list (string * Item)) :
  ~ In k (map fst l) -> JsObject.lookup k l = None.
Proof.
  induction l as [|[k' v] l IH]; simpl; intros H; [reflexivity |].
  destruct (String.eqb_spec k k') as [-> | _]; [elim H; now left |].
  apply IH. tauto.
Qed.

(** ** Enumeration order of the grouping object *)

Section Enumeration.

Let entry : Type := (N * (string * Item))%type.
Let le_fst (a b : entry) : Prop := (fst a <= fst b)%N.

Lemma insert_sorted_perm (e : entry) (l : list entry) :
  Permutation (JsObject.insert_sorted e l) (e :: l).
Proof.
  induction l as [|x l IH]; simpl; [reflexivity |].
  destruct (fst e <=? fst x)%N; [reflexivity |].
  rewrite IH. apply perm_swap.
Qed.

Lemma sort_by_index_perm (l : list entry) :
  Permutation (JsObject.sort_by_index l) l.
Proof.
  induction l as [|x l IH]; simpl; [reflexivity |].
  rewrite insert_sorted_perm. now constructor.
Qed.

Lemma insert_sorted_HdRel (a e : entry) (l : list entry) :
  le_fst a e -> HdRel le_fst a l -> HdRel le_fst a (JsObject.insert_sorted e l).
Proof.
  intros Hae H. destruct l as [|x l]; simpl; [now constructor |].
  destruct (fst e <=? fst x)%N; constructor; [exact Hae |].
  now inversion H.
Qed.

Lemma insert_sorted_Sorted (e : entry) (l : list entry) :
  Sorted le_fst l -> Sorted le_fst (JsObject.insert_sorted e l).
Proof.
  induction 1 as [|x l Hs IH Hd]; simpl; [repeat constructor |].
  destruct (N.leb_spec (fst e) (fst x)) as [Hle | Hgt].
  - constructor; [now constructor | now constructor].
  - constructor; [exact IH |].
    apply insert_sorted_HdRel; [unfold le_fst; lia | exact Hd].
Qed.

Lemma sort_by_index_Sorted (l : list entry) :
  Sorted le_fst (JsObject.sort_by_index l).
Proof.
  induction l as [|x l IH]; simpl; [constructor | now apply insert_sorted_Sorted].
Qed.

Lemma index_entries_In (l : list (string * Item)) (e : entry) :
  In e (JsObject.index_entries l) ->
  JsObject.array_index (fst (snd e)) = Some (fst e) /\ In (snd e) l.
Proof.
  unfold JsObject.index_entries. intros H.
  apply in_flat_map in H. destruct H as [kv [Hkv He]].
  destruct (JsObject.array_index (fst kv)) eqn:Ha; [| destruct He].
  destruct He as [<- | []]. simpl. auto.
Qed.

Lemma index_entries_keys (l : list (string * Item)) :
  map fst (map snd (JsObject.index_entries l))
  = filter JsObject.is_index (map fst l).
Proof.
  unfold JsObject.index_entries, JsObject.is_index.
  induction l as [|kv l IH]; simpl; [reflexivity |].
  destruct (JsObject.array_index (fst kv)); simpl; now rewrite IH.
Qed.

Lemma named_entries_keys (l : list (string * Item)) :
  map fst (JsObject.named_entries l)
  = filter (fun k => negb (JsObject.is_index k)) (map fst l).
Proof.
  unfold JsObject.named_entries.
  induction l as [|kv l IH]; simpl; [reflexivity |].
  destruct (JsObject.is_index (fst kv)); simpl; now rewrite IH.
Qed.

Lemma Sorted_transfer {A B} (R : A -> A -> Prop) (R' : B -> B -> Prop)
  (f : A -> B) (l : list A) :
  (forall a b, In a l -> In b l -> R a b -> R' (f a) (f b)) ->
  Sorted R l -> Sorted R' (map f l).
Proof.
  intros Himp H. induction H as [|x l Hs IH Hd]; simpl; constructor.
  - apply IH. intros a b Ha Hb. apply Himp; now right.
  - destruct Hd as [|y l' Hxy]; simpl; constructor.
    apply Himp; [now left | right; now left | exact Hxy].
Qed.

End Enumeration.

Lemma partition_entries_perm (l : list (string * Item)) :
  Permutation (map snd (JsObject.index_entries l) ++ JsObject.named_entries l) l.
Proof.
  unfold JsObject.index_entries, JsObject.named_entries, JsObject.is_index.
  induction l as [|kv l IH]; simpl; [constructor |].
  destruct (JsObject.array_index (fst kv)); simpl.
  - now constructor.
  - apply Permutation_sym, Permutation_cons_app. now symmetry.
Qed.

Lemma ownEntries_perm (o : JsObject.t Item) :
  Permutation (JsObject.ownEntries o) (JsObject.own o).
Proof.
  unfold JsObject.ownEntries.
  rewrite <- (partition_entries_perm (JsObject.own o)) at 3.
  apply Permutation_app_tail, Permutation_map, sort_by_index_perm.
Qed.

Lemma group_values (items : list Item) (kv : string * Item) :
  In kv (upsertAll [] items) ->
  _srcId (snd kv) = fst kv /\ lastWithSrcId (fst kv) items = Some (snd kv).
Proof.
  destruct kv as [k v]. intros H. apply group_entries in H. simpl. tauto.
Qed.

Lemma reservedKey_false (k : string) :
  reservedKey k = false ->
  String.eqb k "__proto__" = false /\ k <> "hasOwnProperty".
Proof.
  unfold reservedKey. rewrite orb_false_iff. intros [H1 H2].
  split; [exact H1 | now apply String.eqb_neq].
Qed.

(** With no reserved key among the source ids, the second loop raises no
    exception and collects the own properties in enumeration order. *)
Lemma uniqueSource_ordinary (items : list Item) :
  Forall (fun it => reservedKey (_srcId it) = false) items ->
  uniqueSource items
  = Some (map snd (JsObject.ownEntries (JsObject.mk (upsertAll [] items) None))).
Proof.
  intros H. unfold uniqueSource, collectUnique, JsObject.hasOwn.
  assert (Ho : JsObject.own (groupBySrcId items) = upsertAll [] items).
  { apply own_groupBySrcId. eapply Forall_impl; [| exact H].
    intros it Hit. now apply reservedKey_false in Hit. }
  unfold JsObject.ownEntries. rewrite Ho. simpl.
  rewrite lookup_None_keys; [reflexivity |].
  rewrite keys_group, firstOccurrences_In, in_map_iff.
  intros [it [Hk Hin]]. rewrite Forall_forall in H.
  apply H, reservedKey_false in Hin. tauto.
Qed.

(** Shape of the deduplicated list when no source id is a reserved key:
    the array-index ids first, ascending, then the other ids in order of
    first occurrence; every element is the last item of its source id. *)
Lemma uniqueSource_structure (items : list Item) :
  Forall (fun it => reservedKey (_srcId it) = false) items ->
  exists idxs named : list Item,
    uniqueSource items = Some (idxs ++ named)%list
    /\ map _srcId named
       = filter (fun k => negb (JsObject.is_index k))
           (firstOccurrences (map _srcId items))
    /\ Permutation (map _srcId idxs)
         (filter JsObject.is_index (firstOccurrences (map _srcId items)))
    /\ Sorted indexLe (map _srcId idxs)
    /\ Forall (fun u => lastWithSrcId (_srcId u) items = Some u)
         (idxs ++ named)%list.
Proof.
  intros H. rewrite (uniqueSource_ordinary H).
  unfold JsObject.ownEntries. simpl. rewrite map_app.
  set (E := upsertAll [] items).
  set (S := JsObject.sort_by_index (JsObject.index_entries E)).
  assert (HS : forall e, In e S ->
             JsObject.array_index (fst (snd e)) = Some (fst e) /\ In (snd e) E).
  { intros e He. apply index_entries_In.
    eapply Permutation_in; [apply sort_by_index_perm | exact He]. }
  assert (HN : forall kv, In kv (JsObject.named_entries E) -> In kv E).
  { intros kv Hkv. unfold JsObject.named_entries in Hkv.
    now apply filter_In in Hkv. }
  exists (map snd (map snd S)), (map snd (JsObject.named_entries E)).
  split; [reflexivity |]. split; [| split; [| split]].
  - rewrite map_map. rewrite <- (keys_group items). fold E.
    rewrite <- named_entries_keys. apply map_ext_in.
    intros kv Hkv. now apply HN, group_values in Hkv.
  - rewrite <- (keys_group items). fold E. rewrite <- index_entries_keys.
    rewrite !map_map.
    transitivity (map (fun e : N * (string * Item) => fst (snd e)) S).
    + erewrite map_ext_in; [reflexivity |].
      intros e He. now apply HS, proj2, group_values in He.
    + apply Permutation_map, sort_by_index_perm.
  - rewrite !map_map.
    apply Sorted_transfer with (R := fun a b : N * (string * Item) => (fst a <= fst b)%N);
      [| apply sort_by_index_Sorted].
    intros a b Ha Hb Hab. unfold indexLe.
    destruct (HS a Ha) as [Ha1 Ha2]. destruct (HS b Hb) as [Hb1 Hb2].
    apply group_values in Ha2 as [-> _]. apply group_values in Hb2 as [-> _].
    now rewrite Ha1, Hb1.
  - apply Forall_app. split; apply Forall_forall; intros u Hu.
    + rewrite map_map in Hu. apply in_map_iff in Hu as [e [<- He]].
      apply HS, proj2, group_values in He as [-> He]. exact He.
    + apply in_map_iff in Hu as [kv [<- Hkv]].
      apply HN, group_values in Hkv as [-> Hkv]. exact Hkv.
Qed.

(** ** [Item.getSource] *)

Lemma typePromises_all_resolve (us : list Item) :
  Forall (fun u => nameRaises u = false) us ->
  exists rs,
    all_outcomes (map (@outcome _) (map typePromiseAsync us)) = Resolved rs
    /\ map Some rs = map (fun u => typePromise (Item_get u)) us.
Proof.
  induction 1 as [|u us Hu Hus [rs [Hrs Hmap]]]; simpl.
  - now exists [].
  - unfold typePromiseAsync at 1.
    destruct (typePromise_item_total u Hu) as [c Hc]. rewrite Hc. simpl.
    rewrite Hrs. eexists. split; [reflexivity |]. simpl. now rewrite Hmap.
Qed.

(** Outside the extension context, in a source plugin or configuration
    window, [Item.getSource] resolves with the classification of every
    element of the deduplicated list, in order, provided none of them
    makes the classification raise. *)
Lemma getSource_run (h : Host) (items us : list Item) :
  isExtension h = false ->
  isSourcePlugin h || isSourceConfig h = true ->
  outcome (Source_getItemList h) = Resolved items ->
  uniqueSource items = Some us ->
  Forall (fun u => nameRaises u = false) us ->
  exists rs,
    outcome (Item_getSource h) = Resolved rs
    /\ map Some rs = map (fun u => typePromise (Item_get u)) us.
Proof.
  intros He Hp Hi Hu Hn. unfold Item_getSource. rewrite He, Hp.
  unfold andThen at 1. rewrite Hi, Hu. simpl.
  destruct (typePromises_all_resolve Hn) as [rs [Hrs Hmap]].
  exists rs. unfold andThen, Promise_all. simpl. rewrite Hrs. simpl. auto.
Qed.

(** The intended grouping, where it holds: when [Item.getSource] is called
    in a source plugin or configuration window and the enumeration resolves
    a list of items none of whose source ids is [__proto__] or
    [hasOwnProperty] and none of which makes the classification raise, it
    resolves with one classified record per element of the deduplicated
    list, and that list holds items of the enumeration, exactly one for
    every source id that occurs, however many items share it. *)
Lemma one_record_per_ordinary_sourceId (h : Host) (items : list Item) :
  isExtension h = false ->
  isSourcePlugin h || isSourceConfig h = true ->
  outcome (Source_getItemList h) = Resolved items ->
  Forall (fun it => reservedKey (_srcId it) = false) items ->
  Forall (fun it => nameRaises it = false) items ->
  exists (us : list Item) (rs : list ConcreteSource),
    uniqueSource items = Some us
    /\ outcome (Item_getSource h) = Resolved rs
    /\ map Some rs = map (fun u => typePromise (Item_get u)) us
    /\ (forall u, In u us -> In u items)
    /\ (forall s, In s (map _srcId items) ->
          count_occ string_dec (map _srcId us) s = 1%nat).
Proof.
  intros He Hp Hi Hr Hn.
  destruct (uniqueSource_structure Hr)
    as (idxs & named & Hu & Hnamed & Hidx & _ & Hlast).
  assert (Hsub : forall u, In u (idxs ++ named)%list -> In u items).
  { intros u Hin. rewrite Forall_forall in Hlast.
    now apply Hlast, lastWithSrcId_Some in Hin. }
  assert (Hn' : Forall (fun u => nameRaises u = false) (idxs ++ named)%list).
  { rewrite Forall_forall in *. intros u Hin. now apply Hn, Hsub. }
  destruct (getSource_run h He Hp Hi Hu Hn') as [rs [Hrs Hmap]].
  exists (idxs ++ named)%list, rs. repeat split; try assumption.
  intros s Hs.
  assert (Hperm : Permutation (map _srcId (idxs ++ named)%list)
                    (firstOccurrences (map _srcId items))).
  { rewrite map_app, Hnamed, Hidx.
    set (l := firstOccurrences (map _srcId items)).
    clearbody l. clear.
    induction l as [|x l IH]; simpl; [constructor |].
    destruct (JsObject.is_index x); simpl; [now constructor |].
    apply Permutation_sym, Permutation_cons_app. now symmetry. }
  rewrite (Permutation_count_occ string_dec) in Hperm. rewrite Hperm.
  apply NoDup_count_occ'; [apply firstOccurrences_NoDup |].
  now apply firstOccurrences_In.
Qed.

(** On every input the own properties of [uniqueObj] are those the grouping
    loop creates for the items whose source id is not [__proto__]. *)
Lemma own_fold_set_any (items : list Item) (o : JsObject.t Item) :
  JsObject.own (fold_left (fun o it => JsObject.set (_srcId it) it o) items o)
  = upsertAll (JsObject.own o)
      (filter (fun it => negb (String.eqb (_srcId it) "__proto__")) items).
Proof.
  revert o. induction items as [|it items IH]; intros o; [reflexivity |].
  simpl. rewrite IH. unfold JsObject.set.
  destruct (String.eqb (_srcId it) "__proto__"); reflexivity.
Qed.

(** C1, what the code does: [uniqueObj] is a plain object, and assigning to
    its key [__proto__] replaces the prototype instead of creating an
    entry.  Whatever the enumeration resolves, the deduplicated list holds
    no item whose source id is [__proto__]: that source id gets no record,
    however many items carry it. *)
Theorem C1_proto_sourceId_gets_no_record (items us : list Item) :
  uniqueSource items = Some us ->
  ~ In "__proto__" (map _srcId us).
Proof.
  unfold uniqueSource, collectUnique.
  destruct (JsObject.hasOwn "hasOwnProperty" (groupBySrcId items));
    [discriminate |].
  intros [= <-] Hin.
  apply in_map_iff in Hin as [u [Hid Hu]].
  apply in_map_iff in Hu as [kv [<- Hkv]].
  apply (Permutation_in _ (ownEntries_perm (groupBySrcId items))) in Hkv.
  unfold groupBySrcId in Hkv. rewrite own_fold_set_any in Hkv. simpl in Hkv.
  apply group_values in Hkv as [Hk Hlast].
  apply lastWithSrcId_Some in Hlast as [Hmem _].
  apply filter_In in Hmem as [_ Hne].
  rewrite Hid in Hne. discriminate Hne.
Qed.

Lemma C1_proto_sourceId_gets_no_record_witness :
  outcome (Source_getItemList SampleLists.protoMixedHost)
  = Resolved SampleLists.protoMixed
  /\ In "__proto__" (map _srcId SampleLists.protoMixed)
  /\ uniqueSource SampleLists.protoMixed
     = Some [SampleLists.itemOf "{B}" "{SRC-1}"]
  /\ ~ In "__proto__" (map _srcId [SampleLists.itemOf "{B}" "{SRC-1}"])
  /\ option_map (map kind)
       match outcome (Item_getSource SampleLists.protoMixedHost) with
       | Resolved rs => Some rs
       | _ => None
       end
     = Some [MediaSource].
Proof.
  split; [reflexivity |]. split; [now left |]. split; [reflexivity |].
  split; [| reflexivity].
  apply (@C1_proto_sourceId_gets_no_record SampleLists.protoMixed
           [SampleLists.itemOf "{B}" "{SRC-1}"] eq_refl).
Defined.

(** An enumeration that resolves one item, whose source id is [__proto__],
    yields an empty result. *)
Example getSource_proto_sourceId_alone :
  outcome (Source_getItemList SampleLists.protoNamedHost)
  = Resolved SampleLists.protoNamed
  /\ In "__proto__" (map _srcId SampleLists.protoNamed)
  /\ uniqueSource SampleLists.protoNamed = Some []
  /\ outcome (Item_getSource SampleLists.protoNamedHost) = Resolved [].
Proof. repeat split. now left. Qed.

(** A source id that shadows [hasOwnProperty] makes the second loop raise;
    [Item.getSource] then never settles. *)
Example getSource_shadowed_hasOwnProperty :
  uniqueSource SampleLists.shadowing = None
  /\ outcome (Item_getSource SampleLists.shadowingHost) = Pending.
Proof. split; reflexivity. Qed.

Lemma filter_none {A} (P : A -> bool) (l : list A) :
  (forall x, In x l -> P x = false) -> filter P l = [].
Proof.
  induction l as [|x l IH]; simpl; intros H; [reflexivity |].
  rewrite (H x (or_introl eq_refl)). apply IH. auto.
Qed.

Lemma filter_every {A} (P : A -> bool) (l : list A) :
  (forall x, In x l -> P x = true) -> filter P l = l.
Proof.
  induction l as [|x l IH]; simpl; intros H; [reflexivity |].
  rewrite (H x (or_introl eq_refl)). f_equal. apply IH. auto.
Qed.

(** C10, as the code has it: when no source id is [__proto__] or
    [hasOwnProperty], the deduplicated list keeps, for every source id, the
    last item of the resolved list carrying it; the source ids that are
    array indices come first, in ascending numeric order, and the other
    source ids follow in the order of their first occurrence.  When no
    source id is an array index the output order is the order of first
    occurrence throughout. *)
Theorem C10_last_item_kept_in_enumeration_order (items : list Item) :
  Forall (fun it => reservedKey (_srcId it) = false) items ->
  exists idxs named : list Item,
    uniqueSource items = Some (idxs ++ named)%list
    /\ Forall (fun u => lastWithSrcId (_srcId u) items = Some u)
         (idxs ++ named)%list
    /\ map _srcId named
       = filter (fun k => negb (JsObject.is_index k))
           (firstOccurrences (map _srcId items))
    /\ Permutation (map _srcId idxs)
         (filter JsObject.is_index (firstOccurrences (map _srcId items)))
    /\ Sorted indexLe (map _srcId idxs)
    /\ (Forall (fun it => JsObject.is_index (_srcId it) = false) items ->
        idxs = []
        /\ map _srcId named = firstOccurrences (map _srcId items)).
Proof.
  intros Hr.
  destruct (uniqueSource_structure Hr)
    as (idxs & named & Hu & Hnamed & Hidx & Hsorted & Hlast).
  exists idxs, named. repeat split; try assumption.
  - assert (Hnone : filter JsObject.is_index
                      (firstOccurrences (map _srcId items)) = []).
    { apply filter_none. intros x Hx.
      apply firstOccurrences_In, in_map_iff in Hx as [it [<- Hit]].
      rewrite Forall_forall in H. now apply H. }
    rewrite Hnone in Hidx. apply Permutation_sym, Permutation_nil in Hidx.
    now destruct idxs.
  - rewrite Hnamed. apply filter_every. intros x Hx.
    apply firstOccurrences_In, in_map_iff in Hx as [it [<- Hit]].
    rewrite Forall_forall in H. now rewrite (H it Hit).
Qed.

Lemma C10_last_item_kept_in_enumeration_order_witness :
  exists idxs named : list Item,
    uniqueSource SampleLists.linkedFive = Some (idxs ++ named)%list
    /\ Forall (fun u => lastWithSrcId (_srcId u) SampleLists.linkedFive = Some u)
         (idxs ++ named)%list
    /\ map _srcId named
       = filter (fun k => negb (JsObject.is_index k))
           (firstOccurrences (map _srcId SampleLists.linkedFive))
    /\ Permutation (map _srcId idxs)
         (filter JsObject.is_index
            (firstOccurrences (map _srcId SampleLists.linkedFive)))
    /\ Sorted indexLe (map _srcId idxs)
    /\ (Forall (fun it => JsObject.is_index (_srcId it) = false)
          SampleLists.linkedFive ->
        idxs = []
        /\ map _srcId named
           = firstOccurrences (map _srcId SampleLists.linkedFive)).
Proof.
  apply (@C10_last_item_kept_in_enumeration_order SampleLists.linkedFive).
  repeat constructor.
Defined.

(** What the witness list reduces to: the representative of [{SRC-1}] is
    [{F}], the last of its five items, and [{SRC-1}] stays ahead of
    [{SRC-2}]. *)
Example uniqueSource_linkedFive :
  option_map (map (fun u => (_srcId u, _id u))) (uniqueSource SampleLists.linkedFive)
  = Some [("{SRC-1}", "{F}"); ("{SRC-2}", "{C}")].
Proof. reflexivity. Qed.

(** C10 fails as stated: with the source ids [2], [1], [{SRC-3}], [2] in
    resolved-list order, first occurrences are in the order [2], [1],
    [{SRC-3}], but the output lists [1] before [2]. *)
Lemma C10_index_like_ids_are_reordered :
  map _srcId SampleLists.numbered = ["2"; "1"; "{SRC-3}"; "2"]
  /\ firstOccurrences (map _srcId SampleLists.numbered) = ["2"; "1"; "{SRC-3}"]
  /\ option_map (map (fun u => (_srcId u, _id u)))
       (uniqueSource SampleLists.numbered)
     = Some [("1", "{B}"); ("2", "{D}"); ("{SRC-3}", "{C}")].
Proof. repeat split. Qed.

(* ===================================================================== *)
(** * Further properties of the code *)
(* ===================================================================== *)

(** ** [Item.duplicate], over all options *)

Lemma string_app_assoc (a b c : string) : (a ++ b) ++ c = a ++ b ++ c.
Proof. induction a as [|x a IH]; simpl; [reflexivity | now rewrite IH]. Qed.

Lemma additemCommand_isAdditem (l id : string) :
  JsString.endsWith "additem" (additemCommand l id) = true.
Proof.
  apply endsWith_spec. unfold additemCommand.
  exists ("link:" ++ l ++ "|s:" ++ id ++ "|").
  rewrite !string_app_assoc. reflexivity.
Qed.

Ltac duplicate_cases h opts :=
  unfold Item_duplicate;
  destruct (lessThan (cmp_globalsrcMinVersion h)) eqn:?;
  [ | destruct opts as [[[[|]|] [ | ? | [ | ? | ? | ? | ? ]]]|] ];
  cbn -[additemCommand JsString.endsWith JsString.startsWith].

Ltac split_last_call :=
  match goal with
  | |- exists pre name, [CallFunc ?n _] = _ /\ _ => exists [], n
  | |- exists pre name, [?a; CallFunc ?n _] = _ /\ _ => exists [a], n
  | |- exists pre name, [?a; ?b; CallFunc ?n _] = _ /\ _ => exists [a; b], n
  end.

(** On a host below the global-source threshold [duplicate] ignores its
    options: whatever they are, valid or not, it issues the one command
    [additem] with the serialized item and resolves with the item. *)
Lemma duplicate_legacy_ignores_options
  (h : Host) (this : Item) (opts : option Options) :
  lessThan (cmp_globalsrcMinVersion h) = true ->
  Item_duplicate h this opts
  = mkAsync [CallFunc "additem" (toXMLString h this)] (Resolved this).
Proof. intros H. unfold Item_duplicate. now rewrite H. Qed.

(** X1: [duplicate] settles in one of two ways (the host completing the calls
    it receives).  Either it resolves
    with the item it was called on, after exactly one [additem] command,
    which is its last host call and carries the serialization of that
    item; or it rejects with [Invalid parameters] without any [additem]
    command. *)
Theorem duplicate_resolves_after_one_additem
  (h : Host) (this : Item) (opts : option Options) :
  (outcome (Item_duplicate h this opts) = Resolved this
   /\ exists pre name,
        calls (Item_duplicate h this opts)
        = (pre ++ [CallFunc name (toXMLString h this)])%list
        /\ JsString.endsWith "additem" name = true
        /\ forallb (fun c => negb (isAdditem c)) pre = true)
  \/ (outcome (Item_duplicate h this opts) = Rejected "Invalid parameters"
      /\ forallb (fun c => negb (isAdditem c))
           (calls (Item_duplicate h this opts)) = true).
Proof.
  duplicate_cases h opts;
    try (right; split; reflexivity);
    left; (split; [reflexivity |]);
    split_last_call;
    (split; [reflexivity |]);
    (split; [first [reflexivity | apply additemCommand_isAdditem] | reflexivity]).
Qed.

(** X2: [duplicate] rejects exactly when the host is at or above the
    global-source threshold, an options object is given, its [scene] is not
    a [Scene], and either [scene] is present or [linked] is absent.  So
    [duplicate({})] rejects although [duplicate()] succeeds, while
    [duplicate({linked: l})] does not need a scene. *)
Theorem duplicate_rejects_iff
  (h : Host) (this : Item) (opts : option Options) (m : string) :
  outcome (Item_duplicate h this opts) = Rejected m
  <-> m = "Invalid parameters"
      /\ lessThan (cmp_globalsrcMinVersion h) = false
      /\ exists o, opts = Some o
           /\ (forall s, scene o <> SceneRef s)
           /\ (scene_is_undefined (scene o) = false \/ linked o = None).
Proof.
  duplicate_cases h opts; split;
    try discriminate;
    try (intros (_ & Hf & _); discriminate Hf);
    try (intros (_ & _ & o & Ho & _); discriminate Ho);
    try (intros [= <-]; repeat split; eexists; repeat split;
         [ intros ?; discriminate | auto ]);
    try (intros (-> & _); reflexivity);
    try (intros (_ & _ & o & [= <-] & Hs & Hl); cbn in Hs, Hl;
         first [ now elim (Hs _ eq_refl)
               | destruct Hl; discriminate ]).
Qed.




(** ** Enumeration, beyond the id list *)

Lemma Source_getItemList_list_run (h : Host) :
  isExtension h = false ->
  lessThan (cmp_minVersion h) = false ->
  isSourcePlugin h || isSourceConfig h = true ->
  Source_getItemList h
  = mkAsync (ItemGet "itemlist" None
               :: map SearchItemsById
                    (JsString.split "," (itemProperty h "itemlist" None)))
            (Resolved (resolvedInOrder h
                         (JsString.split "," (itemProperty h "itemlist" None)))).
Proof.
  intros He Hl Hp. unfold Source_getItemList. rewrite He, Hl, Hp.
  unfold andThen. simpl. now rewrite resolveItemList_run.
Qed.

Lemma Item_getItemList_list_run (h : Host) (this : Item) :
  lessThan (cmp_minVersion h) = false ->
  Item_getItemList h this
  = mkAsync (ItemGet "itemlist" (Some (_id this))
               :: map SearchItemsById
                    (JsString.split ","
                       (itemProperty h "itemlist" (Some (_id this)))))
            (Resolved (resolvedInOrder h
                         (JsString.split ","
                            (itemProperty h "itemlist" (Some (_id this)))))).
Proof.
  intros Hl. unfold Item_getItemList. rewrite Hl.
  unfold andThen. simpl. now rewrite resolveItemList_run.
Qed.

Lemma Source_getItemList_legacy_run (h : Host) :
  isExtension h = false ->
  lessThan (cmp_minVersion h) = true ->
  Source_getItemList h
  = mkAsync [SearchItemsById (getBaseId h)]
      match searchItemsById h (getBaseId h) with
      | Some it => Resolved [it]
      | None => Pending
      end.
Proof.
  intros He Hl. unfold Source_getItemList. rewrite He, Hl.
  unfold andThen, HostApi.Scene_searchItemsById. simpl.
  now destruct (searchItemsById h (getBaseId h)).
Qed.

Lemma resolvedInOrder_length (h : Host) (ids : list string) :
  (List.length (resolvedInOrder h ids) <= List.length ids)%nat.
Proof.
  unfold resolvedInOrder. induction ids as [|id ids IH]; simpl; [lia |].
  destruct (searchItemsById h id); simpl; lia.
Qed.

Lemma resolvedInOrder_nil (h : Host) (ids : list string) :
  resolvedInOrder h ids = []
  <-> Forall (fun id => searchItemsById h id = None) ids.
Proof.
  unfold resolvedInOrder. induction ids as [|id ids IH]; simpl.
  - split; constructor.
  - destruct (searchItemsById h id) eqn:Hs; simpl.
    + split; [discriminate | intros H; inversion H; congruence].
    + rewrite IH. split; [now constructor | intros H; now inversion H].
Qed.

Lemma resolvedInOrder_head (h : Host) (ids : list string) (it : Item) :
  (exists rest, resolvedInOrder h ids = it :: rest)
  <-> exists pre id post,
        ids = (pre ++ id :: post)%list
        /\ Forall (fun id' => searchItemsById h id' = None) pre
        /\ searchItemsById h id = Some it.
Proof.
  unfold resolvedInOrder. induction ids as [|id ids IH]; simpl.
  - split; [intros [r Hr]; discriminate |].
    intros (pre & i & post & H & _). now destruct pre.
  - destruct (searchItemsById h id) as [found|] eqn:Hs; simpl.
    + split.
      * intros [r [= -> _]]. exists [], id, ids. repeat split; auto.
      * intros ([|p pre] & i & post & [= <- Hids] & Hpre & Hi).
        -- exists (flat_map (fun id => match searchItemsById h id with
                                       | Some it => [it] | None => [] end) ids).
           congruence.
        -- inversion Hpre; congruence.
    + rewrite IH. split.
      * intros (pre & i & post & -> & Hpre & Hi).
        exists (id :: pre), i, post. repeat split; auto.
      * intros ([|p pre] & i & post & [= <- Hids] & Hpre & Hi); [congruence |].
        exists pre, i, post. inversion Hpre. auto.
Qed.

(** X6: On the list path enumeration reads [itemlist] once and then searches
    the scene tree for every id of the list, once each and in list order,
    whether or not earlier searches failed; it issues no other host call,
    and it returns at most as many items as the list has ids. *)
Theorem getItemList_searches_every_id (h : Host) (this : Item) :
  lessThan (cmp_minVersion h) = false ->
  (isExtension h = false ->
   isSourcePlugin h || isSourceConfig h = true ->
   calls (Source_getItemList h)
   = ItemGet "itemlist" None
       :: map SearchItemsById
            (JsString.split "," (itemProperty h "itemlist" None))
   /\ exists items,
        outcome (Source_getItemList h) = Resolved items
        /\ (List.length items
            <= List.length (JsString.split "," (itemProperty h "itemlist" None)))%nat)
  /\ calls (Item_getItemList h this)
     = ItemGet "itemlist" (Some (_id this))
         :: map SearchItemsById
              (JsString.split "," (itemProperty h "itemlist" (Some (_id this))))
  /\ exists items,
       outcome (Item_getItemList h this) = Resolved items
       /\ (List.length items
           <= List.length (JsString.split ","
                        (itemProperty h "itemlist" (Some (_id this)))))%nat.
Proof.
  intros Hl. split; [intros He Hp | ].
  - rewrite (Source_getItemList_list_run h He Hl Hp). simpl.
    split; [reflexivity |]. eexists. split; [reflexivity |].
    apply resolvedInOrder_length.
  - rewrite (Item_getItemList_list_run h this Hl). simpl.
    split; [reflexivity |]. eexists. split; [reflexivity |].
    apply resolvedInOrder_length.
Qed.

Lemma getItemList_searches_every_id_witness :
  calls (Source_getItemList SampleHosts.plugin)
  = [ItemGet "itemlist" None; SearchItemsById "{A}"; SearchItemsById "{GONE}";
     SearchItemsById "{B}"; SearchItemsById "{C}"].
Proof.
  destruct (@getItemList_searches_every_id SampleHosts.plugin
              (SampleHosts.linkedItem "{A}") eq_refl) as [HS _].
  destruct (HS eq_refl eq_refl) as [Hc _]. rewrite Hc. reflexivity.
Defined.

Lemma Source_getCurrentSource_list_run (h : Host) :
  isExtension h = false ->
  isSourcePlugin h || isSourceConfig h = true ->
  cmp_minVersion h = Gt ->
  Source_getCurrentSource h
  = mkAsync (calls (Source_getItemList h))
      match resolvedInOrder h
              (JsString.split "," (itemProperty h "itemlist" None)) with
      | it :: _ => Resolved it
      | [] => Rejected "Cannot get item list"
      end.
Proof.
  intros He Hp Hc. unfold Source_getCurrentSource. rewrite He, Hp, Hc. simpl.
  assert (Hl : lessThan (cmp_minVersion h) = false) by now rewrite Hc.
  rewrite (Source_getItemList_list_run h He Hl Hp).
  unfold andThen. simpl.
  destruct (resolvedInOrder h _); simpl; now rewrite app_nil_r.
Qed.

Lemma Source_getCurrentSource_single_run (h : Host) :
  isExtension h = false ->
  isSourcePlugin h || isSourceConfig h = true ->
  cmp_minVersion h <> Gt ->
  Source_getCurrentSource h
  = mkAsync [SearchItemsById (getBaseId h)]
      match searchItemsById h (getBaseId h) with
      | Some it => Resolved it
      | None => Pending
      end.
Proof.
  intros He Hp Hc. unfold Source_getCurrentSource. rewrite He, Hp.
  assert (Hg : greaterThan (cmp_minVersion h) = false)
    by (destruct (cmp_minVersion h) eqn:E; simpl; congruence).
  rewrite Hg. simpl.
  unfold andThen, HostApi.Scene_searchItemsById. simpl.
  now destruct (searchItemsById h (getBaseId h)).
Qed.

(** X7: Away from the threshold version itself, [getCurrentSource] is the head
    of [getItemList]: in a source plugin or configuration window it issues
    the same host calls, resolves with an item exactly when [getItemList]
    resolves a list that starts with that item, and rejects with
    [Cannot get item list] exactly when [getItemList] resolves the empty
    list. *)
Theorem getCurrentSource_is_head_of_getItemList (h : Host) :
  isExtension h = false ->
  isSourcePlugin h || isSourceConfig h = true ->
  cmp_minVersion h <> Eq ->
  calls (Source_getCurrentSource h) = calls (Source_getItemList h)
  /\ (forall it,
        outcome (Source_getCurrentSource h) = Resolved it
        <-> exists rest, outcome (Source_getItemList h) = Resolved (it :: rest))
  /\ (outcome (Source_getCurrentSource h) = Rejected "Cannot get item list"
      <-> outcome (Source_getItemList h) = Resolved []).
Proof.
  intros He Hp Hc. destruct (cmp_minVersion h) eqn:Hv; [congruence | |].
  - assert (Hng : cmp_minVersion h <> Gt) by (rewrite Hv; discriminate).
    assert (Hlt : lessThan (cmp_minVersion h) = true) by now rewrite Hv.
    rewrite (Source_getCurrentSource_single_run h He Hp Hng).
    rewrite (Source_getItemList_legacy_run h He Hlt).
    simpl. split; [reflexivity |].
    destruct (searchItemsById h (getBaseId h)); split;
      try (intros it; split; [intros [= <-]; now exists [] | intros [r [= <-]]; reflexivity]);
      try (intros it; split; [discriminate | intros [r Hr]; discriminate]);
      split; discriminate.
  - assert (Hlt : lessThan (cmp_minVersion h) = false) by now rewrite Hv.
    rewrite (Source_getCurrentSource_list_run h He Hp Hv).
    rewrite (Source_getItemList_list_run h He Hlt Hp).
    simpl. split; [reflexivity |].
    destruct (resolvedInOrder h _) as [|x l]; split;
      try (intros it; split; [discriminate | intros [r Hr]; discriminate]);
      try (intros it; split; [intros [= <-]; now exists l | intros [r [= <- _]]; reflexivity]);
      split; (reflexivity || discriminate).
Qed.

Lemma getCurrentSource_is_head_of_getItemList_witness :
  outcome (Source_getCurrentSource SampleHosts.plugin)
  = Resolved (SampleHosts.linkedItem "{A}").
Proof.
  destruct (@getCurrentSource_is_head_of_getItemList SampleHosts.plugin
              eq_refl eq_refl) as (_ & H & _).
  - discriminate.
  - apply H. eexists. reflexivity.
Defined.

(** X8: On a current host [getCurrentSource] resolves with the item of the
    first id of the list whose scene search succeeds, and rejects with
    [Cannot get item list] exactly when no id of the list resolves. *)
Theorem getCurrentSource_first_resolved_id (h : Host) :
  isExtension h = false ->
  isSourcePlugin h || isSourceConfig h = true ->
  cmp_minVersion h = Gt ->
  (forall it,
     outcome (Source_getCurrentSource h) = Resolved it
     <-> exists pre id post,
           JsString.split "," (itemProperty h "itemlist" None)
           = (pre ++ id :: post)%list
           /\ Forall (fun id' => searchItemsById h id' = None) pre
           /\ searchItemsById h id = Some it)
  /\ (outcome (Source_getCurrentSource h) = Rejected "Cannot get item list"
      <-> Forall (fun id => searchItemsById h id = None)
            (JsString.split "," (itemProperty h "itemlist" None))).
Proof.
  intros He Hp Hv. rewrite (Source_getCurrentSource_list_run h He Hp Hv). simpl.
  split.
  - intros it. rewrite <- resolvedInOrder_head.
    destruct (resolvedInOrder h _) as [|x l]; split.
    + discriminate.
    + intros [r Hr]. discriminate.
    + intros [= <-]. now exists l.
    + intros [r [= <- _]]. reflexivity.
  - rewrite <- resolvedInOrder_nil.
    destruct (resolvedInOrder h _); split; (reflexivity || discriminate).
Qed.

Lemma getCurrentSource_first_resolved_id_witness :
  outcome (Source_getCurrentSource
             (SampleHosts.host false true false Gt Gt "{GONE},{B},{A}"))
  = Resolved (SampleHosts.linkedItem "{B}").
Proof.
  destruct (@getCurrentSource_first_resolved_id
              (SampleHosts.host false true false Gt Gt "{GONE},{B},{A}")
              eq_refl eq_refl eq_refl) as [H _].
  apply H. exists ["{GONE}"], "{B}", ["{A}"]. repeat split.
  repeat constructor.
Defined.

(** X9: At exactly the minimum version the two operations part ways:
    [getItemList] reads the id list, [getCurrentSource] does not and
    searches the scene tree for the base id alone. *)
Theorem getCurrentSource_at_minimum_version (h : Host) :
  isExtension h = false ->
  isSourcePlugin h || isSourceConfig h = true ->
  cmp_minVersion h = Eq ->
  calls (Source_getCurrentSource h) = [SearchItemsById (getBaseId h)]
  /\ exists searches,
       calls (Source_getItemList h) = ItemGet "itemlist" None :: searches.
Proof.
  intros He Hp Hv.
  assert (Hng : cmp_minVersion h <> Gt) by (rewrite Hv; discriminate).
  assert (Hlt : lessThan (cmp_minVersion h) = false) by now rewrite Hv.
  split.
  - now rewrite (Source_getCurrentSource_single_run h He Hp Hng).
  - rewrite (Source_getItemList_list_run h He Hlt Hp).
    eexists. reflexivity.
Qed.

Lemma getCurrentSource_at_minimum_version_witness :
  calls (Source_getCurrentSource
           (SampleHosts.host false true false Eq Gt "{B},{C}"))
  = [SearchItemsById "{A}"]
  /\ outcome (Source_getItemList
                (SampleHosts.host false true false Eq Gt "{B},{C}"))
     = Resolved [SampleHosts.linkedItem "{B}"; SampleHosts.linkedItem "{C}"].
Proof.
  split; [| reflexivity].
  apply (@getCurrentSource_at_minimum_version
           (SampleHosts.host false true false Eq Gt "{B},{C}")
           eq_refl eq_refl eq_refl).
Defined.

Lemma andThen_not_rejected {A B} (p : Async A) (k : A -> Async B) (m : string) :
  (forall a, outcome (k a) <> Rejected m) ->
  outcome (andThen p k) <> Rejected m.
Proof.
  intros H. unfold andThen. destruct (outcome p); simpl; [apply H | |]; discriminate.
Qed.

Lemma typePromiseAsync_calls (us : list Item) :
  flat_map (@calls _) (map typePromiseAsync us) = [].
Proof.
  induction us as [|u us IH]; simpl; [reflexivity |].
  unfold typePromiseAsync at 1.
  destruct (typePromise (Item_get u)); simpl; exact IH.
Qed.

Lemma Item_getSource_not_rejected (h : Host) (m : string) :
  isExtension h = false -> outcome (Item_getSource h) <> Rejected m.
Proof.
  intros He. unfold Item_getSource. rewrite He.
  destruct (isSourcePlugin h || isSourceConfig h); [| discriminate].
  apply andThen_not_rejected. intros items.
  destruct (uniqueSource items); [| discriminate].
  apply andThen_not_rejected. intros rs. discriminate.
Qed.

Lemma Source_getItemList_not_rejected (h : Host) (m : string) :
  isExtension h = false -> outcome (Source_getItemList h) <> Rejected m.
Proof.
  intros He. unfold Source_getItemList. rewrite He.
  destruct (lessThan (cmp_minVersion h)).
  - apply andThen_not_rejected. discriminate.
  - destruct (isSourcePlugin h || isSourceConfig h); [| discriminate].
    unfold andThen at 1. simpl. rewrite resolveItemList_run. discriminate.
Qed.

(** X10: The complete list of rejections of the enumeration operations.
    [Source.getItemList] and [Item.getSource] reject in the extension
    context and nowhere else; [item.getItemList] never rejects;
    [Source.getCurrentSource] rejects in the extension context and, on a
    current host, when no id of the list resolves.  A failed scene search
    never surfaces as a rejection. *)
Theorem enumeration_rejections (h : Host) (this : Item) (m : string) :
  (outcome (Source_getItemList h) = Rejected m
   <-> isExtension h = true /\ m = extensionError)
  /\ outcome (Item_getItemList h this) <> Rejected m
  /\ (outcome (Item_getSource h) = Rejected m
      <-> isExtension h = true /\ m = getSourceError)
  /\ (outcome (Source_getCurrentSource h) = Rejected m
      <-> (isExtension h = true /\ m = extensionError)
          \/ (isExtension h = false
              /\ isSourcePlugin h || isSourceConfig h = true
              /\ cmp_minVersion h = Gt
              /\ m = "Cannot get item list"
              /\ Forall (fun id => searchItemsById h id = None)
                   (JsString.split "," (itemProperty h "itemlist" None)))).
Proof.
  split; [| split; [| split]].
  - split.
    + intros H. destruct (isExtension h) eqn:He.
      * unfold Source_getItemList in H. rewrite He in H. injection H as <-. auto.
      * now apply Source_getItemList_not_rejected in H.
    + intros [He ->]. unfold Source_getItemList. now rewrite He.
  - unfold Item_getItemList. destruct (lessThan (cmp_minVersion h)).
    + apply andThen_not_rejected. discriminate.
    + unfold andThen at 1. simpl. rewrite resolveItemList_run. discriminate.
  - split.
    + intros H. destruct (isExtension h) eqn:He.
      * unfold Item_getSource in H. rewrite He in H. injection H as <-. auto.
      * now apply Item_getSource_not_rejected in H.
    + intros [He ->]. unfold Item_getSource. now rewrite He.
  - split.
    + intros H. destruct (isExtension h) eqn:He.
      * left. unfold Source_getCurrentSource in H. rewrite He in H.
        injection H as <-. auto.
      * right. destruct (isSourcePlugin h || isSourceConfig h) eqn:Hp.
        -- destruct (cmp_minVersion h) eqn:Hv.
           ++ assert (Hng : cmp_minVersion h <> Gt) by (rewrite Hv; discriminate).
              rewrite (Source_getCurrentSource_single_run h He Hp Hng) in H.
              simpl in H. now destruct (searchItemsById h (getBaseId h)).
           ++ assert (Hng : cmp_minVersion h <> Gt) by (rewrite Hv; discriminate).
              rewrite (Source_getCurrentSource_single_run h He Hp Hng) in H.
              simpl in H. now destruct (searchItemsById h (getBaseId h)).
           ++ rewrite (Source_getCurrentSource_list_run h He Hp Hv) in H.
              simpl in H. rewrite <- resolvedInOrder_nil.
              destruct (resolvedInOrder h _); [| discriminate].
              injection H as <-. auto.
        -- unfold Source_getCurrentSource in H. rewrite He, Hp in H.
           discriminate H.
    + intros [[He ->] | (He & Hp & Hv & -> & Hall)].
      * unfold Source_getCurrentSource. now rewrite He.
      * rewrite (Source_getCurrentSource_list_run h He Hp Hv). simpl.
        apply resolvedInOrder_nil in Hall. now rewrite Hall.
Qed.

(** X11: When enumeration never settles, given that the host answers the
    read of [itemlist] it receives (a read that fails or hangs leaves the
    list path unsettled as well, since nothing handles it).
    [Source.getItemList] stays unsettled exactly when, outside the extension context, either the host is older
    than the minimum version and the search for the base id fails, or the
    host is current and the context is neither a source plugin nor a
    configuration window; [item.getItemList] exactly when the host is
    older than the minimum version and the search for the item's own id
    fails; [Source.getCurrentSource] exactly when, outside the extension
    context, either the context is none of the three or the single search
    it makes at or below the minimum version fails. *)
Theorem enumeration_unsettled_iff (h : Host) (this : Item) :
  (outcome (Source_getItemList h) = Pending
   <-> isExtension h = false
       /\ ((lessThan (cmp_minVersion h) = true
            /\ searchItemsById h (getBaseId h) = None)
           \/ (lessThan (cmp_minVersion h) = false
               /\ isSourcePlugin h || isSourceConfig h = false)))
  /\ (outcome (Item_getItemList h this) = Pending
      <-> lessThan (cmp_minVersion h) = true
          /\ searchItemsById h (_id this) = None)
  /\ (outcome (Source_getCurrentSource h) = Pending
      <-> isExtension h = false
          /\ (isSourcePlugin h || isSourceConfig h = false
              \/ (isSourcePlugin h || isSourceConfig h = true
                  /\ cmp_minVersion h <> Gt
                  /\ searchItemsById h (getBaseId h) = None))).
Proof.
  split; [| split].
  - unfold Source_getItemList.
    destruct (isExtension h); [intuition discriminate |].
    destruct (lessThan (cmp_minVersion h)).
    + unfold andThen, HostApi.Scene_searchItemsById. simpl.
      destruct (searchItemsById h (getBaseId h)); simpl;
        intuition (discriminate || auto).
    + destruct (isSourcePlugin h || isSourceConfig h).
      * unfold andThen at 1. simpl. rewrite resolveItemList_run. simpl.
        intuition discriminate.
      * simpl. intuition auto.
  - unfold Item_getItemList. destruct (lessThan (cmp_minVersion h)).
    + unfold andThen, HostApi.Scene_searchItemsById. simpl.
      destruct (searchItemsById h (_id this)); simpl;
        intuition (discriminate || auto).
    + unfold andThen at 1. simpl. rewrite resolveItemList_run. simpl.
      intuition discriminate.
  - destruct (isExtension h) eqn:He.
    + unfold Source_getCurrentSource. rewrite He. intuition discriminate.
    + destruct (isSourcePlugin h || isSourceConfig h) eqn:Hp.
      * destruct (cmp_minVersion h) eqn:Hv.
        -- assert (Hng : cmp_minVersion h <> Gt) by (rewrite Hv; discriminate).
           rewrite (Source_getCurrentSource_single_run h He Hp Hng). simpl.
           destruct (searchItemsById h (getBaseId h));
             intuition (discriminate || auto).
        -- assert (Hng : cmp_minVersion h <> Gt) by (rewrite Hv; discriminate).
           rewrite (Source_getCurrentSource_single_run h He Hp Hng). simpl.
           destruct (searchItemsById h (getBaseId h));
             intuition (discriminate || auto).
        -- rewrite (Source_getCurrentSource_list_run h He Hp Hv). simpl.
           destruct (resolvedInOrder h _); intuition (discriminate || congruence).
      * unfold Source_getCurrentSource. rewrite He, Hp. simpl.
        intuition auto.
Qed.

(** X12: When no id of the list resolves, for instance when the [itemlist]
    property is the empty string (its single piece, the empty id, is
    searched and not found), a current host in a plugin context gets the
    empty list from [getItemList], the rejection [Cannot get item list]
    from [getCurrentSource], and the empty list from [getSource]. *)
Theorem enumeration_of_stale_list (h : Host) :
  isExtension h = false ->
  isSourcePlugin h || isSourceConfig h = true ->
  cmp_minVersion h = Gt ->
  Forall (fun id => searchItemsById h id = None)
    (JsString.split "," (itemProperty h "itemlist" None)) ->
  outcome (Source_getItemList h) = Resolved []
  /\ outcome (Source_getCurrentSource h) = Rejected "Cannot get item list"
  /\ outcome (Item_getSource h) = Resolved [].
Proof.
  intros He Hp Hv Hall. apply resolvedInOrder_nil in Hall.
  assert (Hl : lessThan (cmp_minVersion h) = false) by now rewrite Hv.
  assert (Hi : outcome (Source_getItemList h) = Resolved []).
  { rewrite (Source_getItemList_list_run h He Hl Hp). simpl. now rewrite Hall. }
  split; [exact Hi | split].
  - rewrite (Source_getCurrentSource_list_run h He Hp Hv). simpl. now rewrite Hall.
  - destruct (@getSource_run h [] [] He Hp Hi eq_refl (Forall_nil _))
      as [rs [Hrs Hmap]].
    rewrite Hrs. now destruct rs.
Qed.

Lemma enumeration_of_stale_list_witness :
  JsString.split "," "" = [""]
  /\ outcome (Source_getItemList (SampleHosts.host false true false Gt Gt ""))
     = Resolved []
  /\ outcome (Source_getCurrentSource (SampleHosts.host false true false Gt Gt ""))
     = Rejected "Cannot get item list"
  /\ outcome (Item_getSource (SampleHosts.host false true false Gt Gt ""))
     = Resolved [].
Proof.
  split; [reflexivity |].
  apply (@enumeration_of_stale_list (SampleHosts.host false true false Gt Gt "")
           eq_refl eq_refl eq_refl).
  repeat constructor.
Defined.

(** ** [Item.getSource], beyond deduplication *)

(** X13: Deduplication and classification perform no host call: in a source
    plugin or configuration window [Item.getSource] issues exactly the host
    calls of the enumeration it starts with. *)
Theorem getSource_issues_only_enumeration_calls (h : Host) :
  isExtension h = false ->
  isSourcePlugin h || isSourceConfig h = true ->
  calls (Item_getSource h) = calls (Source_getItemList h).
Proof.
  intros He Hp. unfold Item_getSource. rewrite He, Hp.
  unfold andThen at 1.
  destruct (outcome (Source_getItemList h)) as [items | |]; simpl; try reflexivity.
  destruct (uniqueSource items) as [us|]; simpl; [| apply app_nil_r].
  unfold andThen, Promise_all. simpl. rewrite typePromiseAsync_calls.
  destruct (all_outcomes _); simpl; apply app_nil_r.
Qed.

Lemma getSource_issues_only_enumeration_calls_witness :
  calls (Item_getSource SampleHosts.plugin)
  = [ItemGet "itemlist" None; SearchItemsById "{A}"; SearchItemsById "{GONE}";
     SearchItemsById "{B}"; SearchItemsById "{C}"].
Proof.
  rewrite (@getSource_issues_only_enumeration_calls SampleHosts.plugin
             eq_refl eq_refl).
  reflexivity.
Defined.

Lemma classified_params (us : list Item) (rs : list ConcreteSource) :
  map Some rs = map (fun u => typePromise (Item_get u)) us ->
  map params rs = map (fun u => JObj (_xmlparams u)) us.
Proof.
  revert rs. induction us as [|u us IH]; intros [|r rs]; simpl;
    try discriminate; [reflexivity |].
  intros [= Hr Hrest]. symmetry in Hr. apply typePromise_item_params in Hr.
  rewrite Hr. f_equal. now apply IH.
Qed.

(** X14: When the enumeration resolves items none of whose source ids is a
    reserved key and none of which is an HTML or FILE item without a string
    name (the one case in which classifying an instance raises),
    [Item.getSource] resolves, and every record it resolves with is built
    from the property bag of the item kept for its source id, unchanged;
    that item is the last of the enumeration with that source id, so when
    linked items differ in their property bags the record carries the last
    one's. *)
Theorem getSource_records_carry_last_property_bag
  (h : Host) (items : list Item) :
  isExtension h = false ->
  isSourcePlugin h || isSourceConfig h = true ->
  outcome (Source_getItemList h) = Resolved items ->
  Forall (fun it => reservedKey (_srcId it) = false) items ->
  Forall (fun it => nameRaises it = false) items ->
  exists (us : list Item) (rs : list ConcreteSource),
    uniqueSource items = Some us
    /\ outcome (Item_getSource h) = Resolved rs
    /\ map params rs = map (fun u => JObj (_xmlparams u)) us
    /\ Forall (fun u => lastWithSrcId (_srcId u) items = Some u) us.
Proof.
  intros He Hp Hi Hr Hn.
  destruct (uniqueSource_structure Hr)
    as (idxs & named & Hu & _ & _ & _ & Hlast).
  assert (Hn' : Forall (fun u => nameRaises u = false) (idxs ++ named)%list).
  { rewrite Forall_forall in *. intros u Hin. apply Hn.
    now apply Hlast, lastWithSrcId_Some in Hin. }
  destruct (getSource_run h He Hp Hi Hu Hn') as [rs [Hrs Hmap]].
  exists (idxs ++ named)%list, rs. repeat split; try assumption.
  now apply classified_params.
Qed.

Lemma getSource_records_carry_last_property_bag_witness :
  exists (us : list Item) (rs : list ConcreteSource),
    uniqueSource SampleLists.linkedFive = Some us
    /\ outcome (Item_getSource SampleLists.linkedFiveHost) = Resolved rs
    /\ map params rs = map (fun u => JObj (_xmlparams u)) us
    /\ Forall (fun u => lastWithSrcId (_srcId u) SampleLists.linkedFive = Some u) us.
Proof.
  apply (@getSource_records_carry_last_property_bag SampleLists.linkedFiveHost
           SampleLists.linkedFive); try reflexivity; repeat constructor.
Defined.

(** An HTML item whose bag has no [name] makes the classification raise,
    and [Item.getSource] then never settles. *)
Example getSource_nameless_html_item :
  nameRaises (mkItem "{A}" "{SRC-1}" 8 JUndefined JUndefined "" (JNum 0) false [] true)
  = true
  /\ outcome
       (Item_getSource
          (SampleLists.hostOf
             [mkItem "{A}" "{SRC-1}" 8 JUndefined JUndefined "" (JNum 0) false [] true]
             "{A}"))
     = Pending.
Proof. split; reflexivity. Qed.

(** X15: The class of an [Item] instance depends on its [_type] and [_name]
    alone: two instances that agree on both get the same class, whatever
    their property bags and identity strings; and no instance is ever
    classified as CameraSource, AudioSource or FlashSource. *)
Theorem instance_class_depends_on_type_and_name (it1 it2 : Item) :
  (_type it1 = _type it2 -> _name it1 = _name it2 ->
   option_map kind (typePromise (Item_get it1))
   = option_map kind (typePromise (Item_get it2)))
  /\ option_map kind (typePromise (Item_get it1)) <> Some CameraSource
  /\ option_map kind (typePromise (Item_get it1)) <> Some AudioSource
  /\ option_map kind (typePromise (Item_get it1)) <> Some FlashSource.
Proof.
  split.
  - intros Ht Hn. unfold typePromise, Item_get. simpl. rewrite Ht, Hn.
    destruct (_name it2); simpl;
      repeat match goal with
             | |- context [if ?b then _ else _] => destruct b; simpl
             end; reflexivity.
  - unfold typePromise, Item_get. simpl.
    destruct (_name it1); simpl;
      repeat match goal with
             | |- context [if ?b then _ else _] => destruct b; simpl
             end; repeat split; discriminate.
Qed.

(** X16: Classification raises no exception on a record whose [_name] and
    [item] are strings, and the concrete source is then built from the
    record's [_xmlparams]. *)
Theorem classification_total_on_string_records
  (source : string -> jsval) (n s : string) :
  source "_name" = JStr n ->
  source "item" = JStr s ->
  exists c, typePromise source = Some (mkSource c (source "_xmlparams")).
Proof.
  intros Hn Hs. unfold typePromise. rewrite Hn, Hs. simpl.
  repeat match goal with
         | |- context [if ?b then _ else _] => destruct b; simpl
         end; eexists; reflexivity.
Qed.

Lemma classification_total_on_string_records_witness :
  exists c,
    typePromise (Samples.clipObject "stream.xbs")
    = Some (mkSource c (JObj (Samples.clipProps "stream.xbs"))).
Proof.
  apply (@classification_total_on_string_records
           (Samples.clipObject "stream.xbs") "clip" "stream.xbs"
           eq_refl eq_refl).
Defined.

(** X17: Rule order: a record whose [_type] is GAMESOURCE, SCREEN or BITMAP is
    classified by its type alone, whatever its name, identity string and
    other properties, and without any exception being raised; and an HTML
    record with a string name is a VideoPlaylistSource or an HtmlSource,
    never an ImageSource or MediaSource, even when its identity string
    ends in [.gif]. *)
Theorem type_alone_decides (source : string -> jsval) (t : ItemTypes) :
  Js.Number (source "_type") = Some (ItemTypes_num t) ->
  (t = GAMESOURCE -> option_map kind (typePromise source) = Some GameSource)
  /\ (t = SCREEN -> option_map kind (typePromise source) = Some ScreenSource)
  /\ (t = BITMAP -> option_map kind (typePromise source) = Some ImageSource)
  /\ (t = HTML -> forall n, source "_name" = JStr n ->
      option_map kind (typePromise source) = Some VideoPlaylistSource
      \/ option_map kind (typePromise source) = Some HtmlSource).
Proof.
  intros Ht. unfold typePromise. rewrite Ht.
  repeat split; intros ->; simpl; try reflexivity.
  intros n ->. simpl.
  destruct (_ && _); simpl; auto.
Qed.

Lemma type_alone_decides_witness :
  option_map kind
    (typePromise (objectLiteral [("_type", JNum 4); ("item", JStr "a.mp4")]))
  = Some ImageSource.
Proof.
  apply (@type_alone_decides
           (objectLiteral [("_type", JNum 4); ("item", JStr "a.mp4")])
           BITMAP eq_refl).
  reflexivity.
Defined.

(** *** Deduplicating twice *)

Lemma upsert_fresh (k : string) (v : Item) (l : list (string * Item)) :
  ~ In k (map fst l) -> JsObject.upsert k v l = (l ++ [(k, v)])%list.
Proof.
  induction l as [|[k' v'] l IH]; simpl; intros H; [reflexivity |].
  destruct (String.eqb_spec k k') as [-> | _]; [elim H; now left |].
  rewrite IH; [reflexivity | tauto].
Qed.

Lemma upsertAll_distinct (us : list Item) (l : list (string * Item)) :
  NoDup (map fst l ++ map _srcId us) ->
  upsertAll l us = (l ++ map (fun u => (_srcId u, u)) us)%list.
Proof.
  revert l. induction us as [|u us IH]; intros l H; simpl.
  - now rewrite app_nil_r.
  - change (upsertAll l (u :: us))
      with (upsertAll (JsObject.upsert (_srcId u) u l) us).
    simpl in H.
    assert (Hfresh : ~ In (_srcId u) (map fst l)).
    { intros Hin. apply NoDup_remove_2 in H. apply H, in_or_app. now left. }
    rewrite (@upsert_fresh _ _ _ Hfresh), IH.
    + now rewrite <- app_assoc.
    + rewrite map_app. simpl. rewrite <- app_assoc. exact H.
Qed.

Section SortedLists.

Let entry : Type := (N * (string * Item))%type.
Let le_fst (a b : entry) : Prop := (fst a <= fst b)%N.

Lemma sort_by_index_sorted_id (l : list entry) :
  Sorted le_fst l -> JsObject.sort_by_index l = l.
Proof.
  induction 1 as [|x l Hs IH Hd]; simpl; [reflexivity |].
  rewrite IH. destruct Hd as [|y l' Hxy]; simpl; [reflexivity |].
  unfold le_fst in Hxy. apply N.leb_le in Hxy. now rewrite Hxy.
Qed.

Lemma Sorted_map_inv {A B} (R : B -> B -> Prop) (f : A -> B) (l : list A) :
  Sorted R (map f l) -> Sorted (fun a b => R (f a) (f b)) l.
Proof.
  induction l as [|x l IH]; simpl; intros H; [constructor |].
  inversion H as [|? ? Hs Hd]; subst. constructor; [now apply IH |].
  destruct l; simpl in *; constructor. now inversion Hd.
Qed.

End SortedLists.

Lemma index_entries_of_index_keys (l : list Item) :
  Forall (fun u => JsObject.is_index (_srcId u) = true) l ->
  JsObject.index_entries (map keyed l)
  = map (fun u => (indexValue (_srcId u), keyed u)) l
  /\ JsObject.named_entries (map keyed l) = [].
Proof.
  unfold JsObject.index_entries, JsObject.named_entries, JsObject.is_index,
    indexValue.
  induction 1 as [|u l Hu Hl [IH1 IH2]]; simpl; [split; reflexivity |].
  destruct (JsObject.array_index (_srcId u)) as [n|] eqn:Hn; [| discriminate].
  simpl. now rewrite IH1, IH2.
Qed.

Lemma index_entries_of_named_keys (l : list Item) :
  Forall (fun u => JsObject.is_index (_srcId u) = false) l ->
  JsObject.index_entries (map keyed l) = []
  /\ JsObject.named_entries (map keyed l) = map keyed l.
Proof.
  unfold JsObject.index_entries, JsObject.named_entries, JsObject.is_index.
  induction 1 as [|u l Hu Hl [IH1 IH2]]; simpl; [split; reflexivity |].
  destruct (JsObject.array_index (_srcId u)) as [n|] eqn:Hn; [discriminate |].
  simpl. now rewrite IH1, IH2.
Qed.

Lemma index_entries_app (a b : list (string * Item)) :
  JsObject.index_entries (a ++ b)
  = (JsObject.index_entries a ++ JsObject.index_entries b)%list.
Proof. unfold JsObject.index_entries. apply flat_map_app. Qed.

Lemma named_entries_app (a b : list (string * Item)) :
  JsObject.named_entries (a ++ b)
  = (JsObject.named_entries a ++ JsObject.named_entries b)%list.
Proof. unfold JsObject.named_entries. apply filter_app. Qed.

(** A list shaped like the output of the deduplication (distinct source
    ids, none reserved, array-index ids first and ascending) is left
    unchanged by it. *)
Lemma uniqueSource_fixpoint (idxs named : list Item) :
  Forall (fun u => reservedKey (_srcId u) = false) (idxs ++ named) ->
  NoDup (map _srcId (idxs ++ named)) ->
  Forall (fun u => JsObject.is_index (_srcId u) = true) idxs ->
  Forall (fun u => JsObject.is_index (_srcId u) = false) named ->
  Sorted indexLe (map _srcId idxs) ->
  uniqueSource (idxs ++ named) = Some (idxs ++ named)%list.
Proof.
  intros Hr Hnd Hi Hn Hs. rewrite (uniqueSource_ordinary Hr).
  assert (HE : upsertAll [] (idxs ++ named)
               = (map keyed idxs ++ map keyed named)%list).
  { rewrite upsertAll_distinct by exact Hnd. simpl. apply map_app. }
  rewrite HE. unfold JsObject.ownEntries. cbn [JsObject.own].
  rewrite index_entries_app, named_entries_app.
  destruct (index_entries_of_index_keys Hi) as [-> ->].
  destruct (index_entries_of_named_keys Hn) as [-> ->].
  rewrite app_nil_r. cbn [app].
  rewrite sort_by_index_sorted_id.
  - rewrite map_app, !map_map. unfold keyed. cbn [snd]. now rewrite !map_id.
  - apply Sorted_map_inv in Hs.
    apply Sorted_transfer with (R := fun a b => indexLe (_srcId a) (_srcId b));
      [| exact Hs].
    intros a b _ _. unfold indexLe, indexValue. simpl.
    destruct (JsObject.array_index (_srcId a)),
             (JsObject.array_index (_srcId b)); tauto.
Qed.

(** X18: Deduplication is idempotent: when no source id is a reserved key, the
    deduplicated list is its own deduplication, same items in the same
    order. *)
Theorem uniqueSource_idempotent (items us : list Item) :
  Forall (fun it => reservedKey (_srcId it) = false) items ->
  uniqueSource items = Some us ->
  uniqueSource us = Some us.
Proof.
  intros Hr Hus.
  destruct (uniqueSource_structure Hr)
    as (idxs & named & Hu & Hnamed & Hidx & Hsorted & Hlast).
  rewrite Hu in Hus. injection Hus as <-.
  assert (Hin_idx : forall u, In u idxs -> JsObject.is_index (_srcId u) = true).
  { intros u Hin. apply (in_map _srcId) in Hin.
    apply (Permutation_in _ Hidx) in Hin. now apply filter_In in Hin. }
  assert (Hin_named : forall u, In u named -> JsObject.is_index (_srcId u) = false).
  { intros u Hin. apply (in_map _srcId) in Hin. rewrite Hnamed in Hin.
    apply filter_In in Hin as [_ Hin]. now apply negb_true_iff in Hin. }
  apply uniqueSource_fixpoint.
  - rewrite Forall_forall in *. intros u Hin.
    apply Hlast, lastWithSrcId_Some in Hin as [Hin _]. now apply Hr.
  - rewrite map_app. apply NoDup_app.
    + apply (Permutation_NoDup (Permutation_sym Hidx)).
      apply NoDup_filter, firstOccurrences_NoDup.
    + rewrite Hnamed. apply NoDup_filter, firstOccurrences_NoDup.
    + intros x Hx Hx'.
      apply in_map_iff in Hx as [u [<- Hu1]].
      apply in_map_iff in Hx' as [u' [Heq Hu2]].
      apply Hin_idx in Hu1. apply Hin_named in Hu2. congruence.
  - now apply Forall_forall.
  - now apply Forall_forall.
  - exact Hsorted.
Qed.

Lemma uniqueSource_idempotent_witness :
  exists us,
    uniqueSource SampleLists.numbered = Some us
    /\ uniqueSource us = Some us.
Proof.
  eexists. split; [reflexivity |].
  apply (@uniqueSource_idempotent SampleLists.numbered);
    [repeat constructor | reflexivity].
Defined.

(** ** The ready handshake *)

Lemma ready_effects (config : option Ready.Config) (st : Ready.State) :
  filter Ready.isRunInit (snd (Ready.ready config st))
  = (if Ready.isInit st then [] else [Ready.RunInit])
  /\ Ready.isInit (fst (Ready.ready config st)) = true
  /\ Ready.isReady (fst (Ready.ready config st)) = true.
Proof.
  unfold Ready.ready. cbn.
  destruct (Ready.isInit st) eqn:Hi; cbn;
    (destruct config as [[v r]|]; cbn;
     [destruct (Ready.is_undefined v), (Ready.is_undefined r); cbn |]);
    repeat split; exact Hi.
Qed.

Lemma step_keeps_flags (st : Ready.State) (op : Ready.Op) :
  (Ready.isInit st = true -> Ready.isInit (fst (Ready.step st op)) = true)
  /\ (Ready.isReady st = true -> Ready.isReady (fst (Ready.step st op)) = true).
Proof.
  destruct op as [config | | | v |]; simpl; try tauto.
  destruct (ready_effects config st) as (_ & -> & ->). tauto.
Qed.

Lemma run_cons (op : Ready.Op) (ops : list Ready.Op) (st : Ready.State) :
  Ready.run (op :: ops) st
  = (fst (Ready.run ops (fst (Ready.step st op))),
     (snd (Ready.step st op) ++ snd (Ready.run ops (fst (Ready.step st op))))%list).
Proof.
  simpl. destruct (Ready.step st op) as [st1 e1]. simpl.
  now destruct (Ready.run ops st1).
Qed.

Lemma run_after_init (ops : list Ready.Op) (st : Ready.State) :
  Ready.isInit st = true ->
  filter Ready.isRunInit (snd (Ready.run ops st)) = []
  /\ Ready.isInit (fst (Ready.run ops st)) = true.
Proof.
  revert st. induction ops as [|op ops IH]; intros st Hi; [now split |].
  rewrite run_cons. simpl. rewrite filter_app.
  destruct (IH _ (proj1 (step_keeps_flags st op) Hi)) as [-> ->].
  split; [| reflexivity]. rewrite app_nil_r.
  destruct op as [config | | | v |]; simpl; try reflexivity.
  destruct (ready_effects config st) as (-> & _). now rewrite Hi.
Qed.

Lemma run_keeps_ready (ops : list Ready.Op) (st : Ready.State) :
  Ready.isReady st = true -> Ready.isReady (fst (Ready.run ops st)) = true.
Proof.
  revert st. induction ops as [|op ops IH]; intros st Hr; [exact Hr |].
  rewrite run_cons. simpl. apply IH. now apply step_keeps_flags.
Qed.

(** X19: Whatever is called, in whatever order and however often, [init()] runs
    at most once; it does not run at all once [isInit] is set; and after
    any sequence that contains a call of [ready], both [isReady] and
    [isInit] are set. *)
Theorem init_runs_at_most_once (ops : list Ready.Op) (st : Ready.State) :
  (List.length (filter Ready.isRunInit (snd (Ready.run ops st))) <= 1)%nat
  /\ (Ready.isInit st = true ->
      filter Ready.isRunInit (snd (Ready.run ops st)) = [])
  /\ (existsb Ready.isCallReady ops = true ->
      Ready.isInit (fst (Ready.run ops st)) = true
      /\ Ready.isReady (fst (Ready.run ops st)) = true).
Proof.
  split; [| split].
  - revert st. induction ops as [|op ops IH]; intros st; [simpl; lia |].
    rewrite run_cons. simpl. rewrite filter_app, length_app.
    destruct op as [config | | | v |]; simpl; try apply IH.
    destruct (ready_effects config st) as (-> & Hi & _).
    destruct (run_after_init ops _ Hi) as [-> _].
    destruct (Ready.isInit st); simpl; lia.
  - intros Hi. now apply run_after_init.
  - revert st. induction ops as [|op ops IH]; intros st Hex; [discriminate |].
    rewrite run_cons. simpl.
    destruct op as [config | | | v |]; simpl in Hex; try (now apply IH).
    destruct (ready_effects config st) as (_ & Hi & Hr).
    split; [now apply run_after_init | now apply run_keeps_ready].
Qed.

(** X20: From a freshly loaded module, and as long as nobody calls [setOnce]
    directly, [init()] runs exactly once if [ready] is called at all, on
    its first call, and never otherwise. *)
Theorem init_runs_on_first_ready (ops : list Ready.Op) :
  existsb Ready.isCallSetOnce ops = false ->
  filter Ready.isRunInit (snd (Ready.run ops Ready.loaded))
  = if existsb Ready.isCallReady ops then [Ready.RunInit] else [].
Proof.
  generalize Ready.loaded (eq_refl : Ready.isInit Ready.loaded = false).
  induction ops as [|op ops IH]; intros st Hi Hno; [reflexivity |].
  rewrite run_cons. simpl. rewrite filter_app.
  destruct op as [config | | | v |]; simpl in *; try discriminate;
    try (apply IH; [exact Hi | exact Hno]).
  destruct (ready_effects config st) as (-> & Hi' & _).
  destruct (run_after_init ops _ Hi') as [-> _]. now rewrite Hi.
Qed.

Lemma init_runs_on_first_ready_witness :
  filter Ready.isRunInit
    (snd (Ready.run [Ready.CallRemoteVersion "XSplit Broadcaster 2.9";
                     Ready.CallReady None; Ready.FireReadyEvent;
                     Ready.CallReady (Some (Ready.mkConfig (JStr "2.8") JUndefined))]
            Ready.loaded))
  = [Ready.RunInit].
Proof.
  apply (@init_runs_on_first_ready
           [Ready.CallRemoteVersion "XSplit Broadcaster 2.9";
            Ready.CallReady None; Ready.FireReadyEvent;
            Ready.CallReady (Some (Ready.mkConfig (JStr "2.8") JUndefined))]
           eq_refl).
Defined.

Lemma scanTokens_without_marker (tokens : list string) (current : jsval) :
  ~ In "Broadcaster" tokens -> Ready.scanTokens tokens current = current.
Proof.
  revert current. induction tokens as [|t tokens IH]; intros current H;
    [reflexivity |].
  simpl. destruct (String.eqb_spec t "Broadcaster") as [-> | _].
  - elim H. now left.
  - apply IH. intros Hin. apply H. now right.
Qed.

Lemma scanTokens_last_marker (before after : list string) (current : jsval) :
  ~ In "Broadcaster" after ->
  Ready.scanTokens (before ++ "Broadcaster" :: after) current
  = match after with
    | next :: _ => JStr next
    | [] => JUndefined
    end.
Proof.
  intros H. revert current.
  induction before as [|t before IH]; intros current.
  - simpl. now apply scanTokens_without_marker.
  - simpl. apply IH.
Qed.

(** X21: [remoteVersion] stores the token that follows the last [Broadcaster]
    token of the space-separated string; when that token is the last one
    it stores [undefined]; and when the string has no [Broadcaster] token
    the stored version is left as it was.  The flags are not touched. *)
Theorem remoteVersion_takes_token_after_last_marker
  (version : string) (st : Ready.State) :
  (forall before after,
     JsString.split " " version = (before ++ "Broadcaster" :: after)%list ->
     ~ In "Broadcaster" after ->
     Ready.xjsRemoteVersion (Ready.remoteVersion version st)
     = match after with
       | next :: _ => JStr next
       | [] => JUndefined
       end)
  /\ (~ In "Broadcaster" (JsString.split " " version) ->
      Ready.xjsRemoteVersion (Ready.remoteVersion version st)
      = Ready.xjsRemoteVersion st)
  /\ Ready.isReady (Ready.remoteVersion version st) = Ready.isReady st
  /\ Ready.isInit (Ready.remoteVersion version st) = Ready.isInit st.
Proof.
  unfold Ready.remoteVersion. simpl. repeat split.
  - intros before after -> H. now apply scanTokens_last_marker.
  - intros H. now apply scanTokens_without_marker.
Qed.

(** A user agent string parsed by [remoteVersion]. *)
Example remoteVersion_user_agent :
  Ready.xjsRemoteVersion
    (Ready.remoteVersion
       "Mozilla/5.0 XSplit Broadcaster 2.9.1611.1627 Chrome/39.0"
       Ready.loaded)
  = JStr "2.9.1611.1627".
Proof. reflexivity. Qed.

(** X22: After [remoteVersion(ua)], a call of [ready] whose config has a
    [remote] entry leaves the mock version set to the token that follows
    the last [Broadcaster] token of [ua], whether or not the config also
    names a [version]: the remote version is applied last. *)
Theorem ready_remote_applies_parsed_version
  (ua : string) (config : Ready.Config) (st : Ready.State)
  (before after : list string) (token : string) :
  JsString.split " " ua = (before ++ "Broadcaster" :: token :: after)%list ->
  ~ In "Broadcaster" (token :: after) ->
  Ready.remote config <> JUndefined ->
  Ready.lastMockVersion
    (snd (Ready.run [Ready.CallRemoteVersion ua; Ready.CallReady (Some config)] st))
    None
  = Some (JStr token).
Proof.
  intros Hs Hn Hr. rewrite run_cons. simpl.
  unfold Ready.ready. cbn.
  unfold Ready.remoteVersion at 1 2. cbn.
  rewrite Hs, scanTokens_last_marker by exact Hn.
  destruct config as [v r]. cbn in *.
  assert (Hu : Ready.is_undefined r = false) by (destruct r; congruence || reflexivity).
  rewrite Hu. cbn.
  destruct (Ready.isInit st), (Ready.is_undefined v); reflexivity.
Qed.

Lemma ready_remote_applies_parsed_version_witness :
  Ready.lastMockVersion
    (snd (Ready.run
            [Ready.CallRemoteVersion "XSplit Broadcaster 2.9.1611.1627 Chrome";
             Ready.CallReady (Some (Ready.mkConfig (JStr "2.8") (JBool true)))]
            Ready.loaded))
    None
  = Some (JStr "2.9.1611.1627").
Proof.
  apply (@ready_remote_applies_parsed_version
           "XSplit Broadcaster 2.9.1611.1627 Chrome"
           (Ready.mkConfig (JStr "2.8") (JBool true)) Ready.loaded
           ["XSplit"] ["Chrome"] "2.9.1611.1627" eq_refl).
  - intros [H | [H | []]]; discriminate.
  - discriminate.
Defined.

(** X23: [readyPromise] is resolved by the listener of [xsplit-js-ready] and by
    nothing else: after any sequence of calls on a freshly loaded module
    the promise is resolved exactly when the event has fired; calling
    [ready], [setReady], [setOnce] or [remoteVersion] does not resolve
    it. *)
Theorem readyPromise_resolved_by_event_only (ops : list Ready.Op) :
  Ready.readyResolved (fst (Ready.run ops Ready.loaded))
  = existsb Ready.isFireReadyEvent ops.
Proof.
  change (existsb Ready.isFireReadyEvent ops)
    with (Ready.readyResolved Ready.loaded || existsb Ready.isFireReadyEvent ops).
  generalize Ready.loaded.
  induction ops as [|op ops IH]; intros st; [simpl; now rewrite orb_false_r |].
  rewrite run_cons. simpl. rewrite IH.
  destruct op as [config | | | v |]; simpl;
    try reflexivity; try (now rewrite orb_true_r).
  unfold Ready.ready. cbn.
  destruct (negb (Ready.isInit st)); reflexivity.
Qed.

(** ** Pinned options of [CameraItem] *)

(** X24: [setColorOptionsPinned(b)] issues one write, of [prop:cc_pin] on the
    item's slot, and resolves with the item; on any host that returns the
    written value for that property, [getColorOptionsPinned] resolves with
    [b].  The reader is strict: it resolves [true] for the value ['1'] and
    [false] for every other value. *)
Theorem colorOptionsPinned_round_trip
  (attach : string -> string) (this : Item) (b : bool) :
  exists written,
    CameraItem.setColorOptionsPinned attach this b
    = mkAsync [ItemSet "prop:cc_pin" written (attach (_id this))] (Resolved this)
    /\ (forall h,
          itemProperty h "prop:cc_pin" (Some (attach (_id this))) = written ->
          outcome (CameraItem.getColorOptionsPinned attach h this) = Resolved b)
    /\ (forall h,
          outcome (CameraItem.getColorOptionsPinned attach h this) = Resolved true
          <-> itemProperty h "prop:cc_pin" (Some (attach (_id this))) = "1").
Proof.
  exists (if b then "1" else "0"). split; [reflexivity |]. split.
  - intros h Hv. unfold CameraItem.getColorOptionsPinned, andThen. simpl.
    rewrite Hv. now destruct b.
  - intros h. unfold CameraItem.getColorOptionsPinned, andThen. simpl.
    rewrite <- String.eqb_eq. split; [now intros [= ->] | now intros ->].
Qed.

(** X25: The same for the keying options: [setKeyingOptionsPinned(b)] writes
    [prop:key_pin] once and resolves with the item, and
    [getKeyingOptionsPinned] reads [b] back from a host that returns the
    written value; it resolves [true] for ['1'] only. *)
Theorem keyingOptionsPinned_round_trip
  (attach : string -> string) (this : Item) (b : bool) :
  exists written,
    CameraItem.setKeyingOptionsPinned attach this b
    = mkAsync [ItemSet "prop:key_pin" written (attach (_id this))] (Resolved this)
    /\ (forall h,
          itemProperty h "prop:key_pin" (Some (attach (_id this))) = written ->
          outcome (CameraItem.getKeyingOptionsPinned attach h this) = Resolved b)
    /\ (forall h,
          outcome (CameraItem.getKeyingOptionsPinned attach h this) = Resolved true
          <-> itemProperty h "prop:key_pin" (Some (attach (_id this))) = "1").
Proof.
  exists (if b then "1" else "0"). split; [reflexivity |]. split.
  - intros h Hv. unfold CameraItem.getKeyingOptionsPinned, andThen. simpl.
    rewrite Hv. now destruct b.
  - intros h. unfold CameraItem.getKeyingOptionsPinned, andThen. simpl.
    rewrite <- String.eqb_eq. split; [now intros [= ->] | now intros ->].
Qed.
